(** * WebSocketClient: JSON-RPC correlation, outbound queue and dispatch

    A shallow embedding of [packages/client/src/clients/websocket.ts].

    The class [WebSocketClient] is embedded as a record of its five fields
    together with the parts of the JavaScript world its methods act on:
    the request objects the callers hand in (by reference), the promises
    returned by [rpc], and a log of the calls made on the collaborators
    (the [WebSocket] objects and the inherited [EventEmitter]).

    The collaborators are not part of the class: what is recorded of them is
    the sequence of calls the client makes on them. A listener called by
    [emit] runs inside the call, and [emit] is the last statement of every
    handler that calls it, so whatever a listener does to the client is a
    later call in the transition system below.

    Numbers are modelled as integers ([Z]): [messageId] is a counter that
    starts at 0 and is only ever incremented by one, and JavaScript numbers
    are exact on such integers up to 2^53; a run of [k] calls leaves the
    counter at [k] at most (see [messageId_bounded_by_calls]). *)

From stdpp Require Import gmap strings list fin_maps.
From Stdlib Require Import ZArith Lia.

Local Open Scope Z_scope.

(** ** Values *)

(** What [JSON.parse] can produce. *)
#[warnings="-register-all"]
Inductive json : Type :=
  | JNull
  | JBool (b : bool)
  | JNum (n : Z)
  | JStr (s : string)
  | JArr (items : list json)
  | JObj (fields : list (string * json)).

(** A JavaScript value that may be [undefined]. *)
Abbreviation jsval := (option json).

(** [if (v)]: the truthiness test on a parsed value; [undefined] is falsy. *)
Definition truthy (v : jsval) : bool :=
  match v with
  | None => false
  | Some JNull => false
  | Some (JBool b) => b
  | Some (JNum n) => negb (n =? 0)
  | Some (JStr s) => negb (String.eqb s "")
  | Some (JArr _) => true
  | Some (JObj _) => true
  end.

(** [Array.isArray(v)]. *)
Definition isArray (v : jsval) : option (list json) :=
  match v with
  | Some (JArr items) => Some items
  | _ => None
  end.

(** [export type RpcRequest] *)
Record RpcRequest := mkRequest {
  req_jsonrpc : option string;
  req_id : option Z;
  req_method : string;
  req_params : jsval;
}.

(** [export type RpcError] *)
Record RpcError := mkError {
  err_code : Z;
  err_message : string;
  err_data : jsval;
}.

(** [export type RpcResponse] *)
Record RpcResponse := mkResponse {
  rsp_jsonrpc : string;
  rsp_id : option Z;
  rsp_result : jsval;
  rsp_error : option RpcError;
}.

(** A JavaScript [Error] object: its message and whatever own properties
    were attached to it. *)
Record JsError := mkJsError {
  error_message : string;
  error_own : list (string * json);
}.

(** [new Error(message)] *)
Definition new_Error (message : string) : JsError :=
  {| error_message := message; error_own := [] |}.

Fixpoint own_property (name : string) (props : list (string * json)) : jsval :=
  match props with
  | [] => None
  | (k, v) :: rest => if String.eqb k name then Some v else own_property name rest
  end.

(** ** Promises, sockets, references *)

Abbreviation Promise := nat.
Abbreviation WebSocket := nat.
(** A reference to a request object owned by a caller. *)
Abbreviation Ref := nat.

Inductive PromiseState :=
  | Pending
  | Fulfilled (value : jsval)
  | Rejected (reason : JsError).

(** [type PromiseCache]. Both members are closures; each is represented by
    the promise whose resolving functions it captured: [resolve] is the
    wrapper built in [rpc] (see [call_resolve]), [reject] the promise's own
    reject function. *)
Record PromiseCache := mkCache {
  resolve : Promise;
  reject : Promise;
}.

(** Calls made on the collaborators, in the order they happen. *)
Inductive Effect :=
  | WsNew (ws : WebSocket) (url : string)       (* new WebSocket(url) *)
  | WsClose (ws : WebSocket)                    (* ws.close() *)
  | WsSend (ws : WebSocket) (frame : RpcRequest) (* ws.send(JSON.stringify(o)) *)
  | Emit (event : jsval) (args : list jsval)    (* this.emit(event, ...args) *)
  | Completion (p : Promise) (response : RpcResponse).
                                                (* the resolve wrapper of p is called *)

(** ** State *)

Record State := mkState {
  (* fields of WebSocketClient *)
  messageId : Z;
  messageRequests : gmap Z PromiseCache;
  websocket : option WebSocket;
  connected : bool;
  queue : list Ref;
  (* the world around it *)
  heap : list RpcRequest;
  promises : list PromiseState;
  sockets : nat;
  trace : list Effect;
}.

(** [constructor()], in a world with nothing in it yet. *)
Definition init : State :=
  {| messageId := 0; messageRequests := ∅; websocket := None;
     connected := false; queue := [];
     heap := []; promises := []; sockets := 0%nat; trace := [] |}.

Definition set_messageId (v : Z) (st : State) : State :=
  mkState v (messageRequests st) (websocket st) (connected st) (queue st)
          (heap st) (promises st) (sockets st) (trace st).
Definition set_messageRequests (v : gmap Z PromiseCache) (st : State) : State :=
  mkState (messageId st) v (websocket st) (connected st) (queue st)
          (heap st) (promises st) (sockets st) (trace st).
Definition set_websocket (v : option WebSocket) (st : State) : State :=
  mkState (messageId st) (messageRequests st) v (connected st) (queue st)
          (heap st) (promises st) (sockets st) (trace st).
Definition set_connected (v : bool) (st : State) : State :=
  mkState (messageId st) (messageRequests st) (websocket st) v (queue st)
          (heap st) (promises st) (sockets st) (trace st).
Definition set_queue (v : list Ref) (st : State) : State :=
  mkState (messageId st) (messageRequests st) (websocket st) (connected st) v
          (heap st) (promises st) (sockets st) (trace st).
Definition set_heap (v : list RpcRequest) (st : State) : State :=
  mkState (messageId st) (messageRequests st) (websocket st) (connected st)
          (queue st) v (promises st) (sockets st) (trace st).
Definition set_promises (v : list PromiseState) (st : State) : State :=
  mkState (messageId st) (messageRequests st) (websocket st) (connected st)
          (queue st) (heap st) v (sockets st) (trace st).
Definition set_sockets (v : nat) (st : State) : State :=
  mkState (messageId st) (messageRequests st) (websocket st) (connected st)
          (queue st) (heap st) (promises st) v (trace st).
Definition log (e : Effect) (st : State) : State :=
  mkState (messageId st) (messageRequests st) (websocket st) (connected st)
          (queue st) (heap st) (promises st) (sockets st) (trace st ++ [e]).

(** ** Computations that may throw *)

Inductive Thrown :=
  | ThrowError (e : JsError)   (* throw new Error(...) *)
  | ThrowTypeError.            (* property access on undefined *)

Inductive Outcome (A : Type) :=
  | Ret (a : A)
  | Throw (e : Thrown)
  | OutOfFuel.
Arguments Ret {A} a.
Arguments Throw {A} e.
Arguments OutOfFuel {A}.

Definition M (A : Type) : Type := State → Outcome A * State.

Definition ret {A} (a : A) : M A := λ st, (Ret a, st).
Definition throw {A} (e : Thrown) : M A := λ st, (Throw e, st).
Definition bind {A B} (m : M A) (k : A → M B) : M B :=
  λ st, match m st with
        | (Ret a, st') => k a st'
        | (Throw e, st') => (Throw e, st')
        | (OutOfFuel, st') => (OutOfFuel, st')
        end.
Definition modify (f : State → State) : M unit := λ st, (Ret tt, f st).
Definition gets {A} (f : State → A) : M A := λ st, (Ret (f st), st).

Notation "'let*' x ':=' m 'in' k" := (bind m (λ x, k))
  (at level 10, x name, m at level 100, k at level 200).
Notation "m ';;' k" := (bind m (λ _, k))
  (at level 100, k at level 200, right associativity).

(** ** The collaborators *)

(** [new Promise(executor)] up to the call of the executor: a fresh pending
    promise. *)
Definition new_Promise : M Promise :=
  λ st, (Ret (length (promises st)), set_promises (promises st ++ [Pending]) st).

(** A promise settles at most once; later calls of its resolving functions
    do nothing. *)
Definition settle (p : Promise) (s : PromiseState) : M unit :=
  modify (λ st,
    match promises st !! p with
    | Some Pending => set_promises (<[p := s]> (promises st)) st
    | _ => st
    end).

(** [this.emit(event, ...args)]: the call is recorded. What the inherited
    [EventEmitter] does with it depends on the listeners registered, which
    are not part of the class; in particular it throws for the event name
    ["error"] when there is none. No statement below is about a signal of
    that name. *)
Definition emit (event : jsval) (args : list jsval) : M unit :=
  modify (log (Emit event args)).

(** ** The methods of WebSocketClient *)

(** The closure [resolve] built inside [rpc] for promise [p]:
<<
      const resolve = (response: RpcResponse) => {
        if (response.error) {
          return reject(new Error(response.error.message));
        }
        return _resolve(response.result);
      };
>> *)
Definition call_resolve (p : Promise) (response : RpcResponse) : M unit :=
  modify (log (Completion p response)) ;;
  match rsp_error response with
  | Some error => settle p (Rejected (new_Error (err_message error)))
  | None => settle p (Fulfilled (rsp_result response))
  end.

(** [connect(url)], up to the installation of the three handlers, which
    are [onopen], [onclose] and [onmessage] below. *)
Definition connect (url : string) : M unit :=
  let* old := gets websocket in
  match old with
  | Some ws => modify (log (WsClose ws))
  | None => ret tt
  end ;;
  let* ws := gets sockets in
  modify (set_sockets (S ws)) ;;
  modify (log (WsNew ws url)) ;;
  modify (set_websocket (Some ws)).

(** [message.jsonrpc = '2.0'] *)
Definition stamp (o : RpcRequest) : RpcRequest :=
  mkRequest (Some "2.0"%string) (req_id o) (req_method o) (req_params o).

(** [message.id = id] *)
Definition with_id (n : Z) (o : RpcRequest) : RpcRequest :=
  mkRequest (req_jsonrpc o) (Some n) (req_method o) (req_params o).

(** An assignment to a property of the object behind [message]; a reference
    to no object stands for [undefined]. *)
Definition assign (message : Ref) (f : RpcRequest → RpcRequest) : M unit :=
  let* h := gets heap in
  match h !! message with
  | Some o => modify (set_heap (<[message := f o]> h))
  | None => throw ThrowTypeError
  end.

(** [notify(message)]. [WsSend] records that [send] was called on the
    session with the serialized object; whether the transport takes the
    frame is the transport's matter (a socket that is still connecting
    throws from [send]) and is not recorded. *)
Definition notify (message : Ref) : M unit :=
  assign message stamp ;;
  let* c := gets connected in
  if negb c then
    modify (λ st, set_queue (queue st ++ [message]) st)
  else
    let* w := gets websocket in
    let* h := gets heap in
    match w, h !! message with
    | Some ws, Some o => modify (log (WsSend ws o))
    | _, _ => throw ThrowTypeError
    end.

(** [rpc(message)] *)
Definition rpc (message : Ref) : M Promise :=
  modify (λ st, set_messageId (messageId st + 1) st) ;;
  let* id := gets messageId in
  let* p := new_Promise in
  modify (λ st, set_messageRequests
                  (<[id := {| resolve := p; reject := p |}]> (messageRequests st)) st) ;;
  assign message (with_id id) ;;
  notify message ;;
  ret p.

(** The loop of the open handler:
<<
      while (this.queue.length > 0) {
        const message = this.queue.shift();
        this.notify(message);
      }
>> *)
Fixpoint drain (fuel : nat) (st : State) : Outcome unit * State :=
  match queue st with
  | [] => (Ret tt, st)
  | message :: rest =>
      match fuel with
      | O => (OutOfFuel, st)
      | S fuel' =>
          match notify message (set_queue rest st) with
          | (Ret _, st') => drain fuel' st'
          | other => other
          end
      end
  end.

(** [this.websocket.onopen]. With [connected] set, an iteration of the loop
    takes one element off the queue and adds none, so the length of the
    queue is fuel enough (see [drain_connected]). *)
Definition onopen : M unit :=
  modify (set_connected true) ;;
  let* n := gets (λ st, length (queue st)) in
  drain n ;;
  emit (Some (JStr "open")) [].

(** [this.websocket.onclose] *)
Definition onclose : M unit :=
  modify (set_connected false) ;;
  emit (Some (JStr "close")) [].

(** [msg.id > 0 && this.messageRequests.has(msg.id)], returning the entry. *)
Definition pending_entry (msg : RpcResponse) (st : State) : option (Z * PromiseCache) :=
  match rsp_id msg with
  | Some n => if 0 <? n then (λ c, (n, c)) <$> messageRequests st !! n else None
  | None => None
  end.

(** The branches of the message handler taken when no promise is to be
    resolved. *)
Definition broadcast (msg : RpcResponse) : M unit :=
  match rsp_error msg with
  | Some error => throw (ThrowError (new_Error (err_message error)))
  | None =>
      if truthy (rsp_result msg) then
        match isArray (rsp_result msg) with
        | Some items => emit (items !! 0%nat) [items !! 1%nat]
        | None => ret tt
        end
      else ret tt
  end.

(** [this.websocket.onmessage], after [JSON.parse(e.data)] gave [msg]. The
    handler is an [async] function without [await]: it runs to its end when
    called, and what it throws rejects the promise it returns. *)
Definition onmessage (msg : RpcResponse) : M unit :=
  let* entry := gets (pending_entry msg) in
  match entry with
  | Some (n, c) =>
      call_resolve (resolve c) msg ;;
      modify (λ st, set_messageRequests (delete n (messageRequests st)) st)
  | None => broadcast msg
  end.

(** ** The client as a transition system *)

(** What can happen to a client: a call of one of its three public methods,
    one of the three handlers being run by a transport, or a caller
    creating or changing one of its own request objects. *)
Inductive Call :=
  | Connect (url : string)
  | Notify (message : Ref)
  | Rpc (message : Ref)
  | Open
  | Close
  | Message (msg : RpcResponse)
  | NewObject (o : RpcRequest)
  | Mutate (r : Ref) (o : RpcRequest).

Definition step (c : Call) : M unit :=
  match c with
  | Connect url => connect url
  | Notify message => notify message
  | Rpc message => rpc message ;; ret tt
  | Open => onopen
  | Close => onclose
  | Message msg => onmessage msg
  | NewObject o => modify (λ st, set_heap (heap st ++ [o]) st)
  | Mutate r o => modify (λ st, set_heap (<[r := o]> (heap st)) st)
  end.

(** The handlers exist only once [connect] has installed them on a
    transport. *)
Definition enabled (c : Call) (st : State) : bool :=
  match c with
  | Open | Close | Message _ =>
      match websocket st with Some _ => true | None => false end
  | _ => true
  end.

(** The state a call leaves behind, whether it returned or threw. *)
Definition after (c : Call) (st : State) : State := snd (step c st).

Fixpoint exec (cs : list Call) (st : State) : State :=
  match cs with
  | [] => st
  | c :: cs' => exec cs' (after c st)
  end.

Inductive reachable : State → Prop :=
  | reachable_init : reachable init
  | reachable_step st c :
      reachable st → enabled c st = true → reachable (after c st).

(** [notify] called on each of a list of references in turn. *)
Fixpoint notify_each (messages : list Ref) : M unit :=
  match messages with
  | [] => ret tt
  | message :: rest => notify message ;; notify_each rest
  end.

(** The responses with which the resolve wrapper of [p] was called. *)
Fixpoint completions (p : Promise) (t : list Effect) : list RpcResponse :=
  match t with
  | [] => []
  | Completion q response :: t' =>
      if decide (q = p) then response :: completions p t' else completions p t'
  | _ :: t' => completions p t'
  end.

(** The signals raised. *)
Fixpoint emitted (t : list Effect) : list (jsval * list jsval) :=
  match t with
  | [] => []
  | Emit event args :: t' => (event, args) :: emitted t'
  | _ :: t' => emitted t'
  end.

(** How a promise ends when its resolve wrapper is called with [response]. *)
Definition settled (response : RpcResponse) : PromiseState :=
  match rsp_error response with
  | Some error => Rejected (new_Error (err_message error))
  | None => Fulfilled (rsp_result response)
  end.

(** [msg] carries the identifier of a pending entry. *)
Definition matches_pending (msg : RpcResponse) (st : State) : Prop :=
  ∃ n c, rsp_id msg = Some n ∧ messageRequests st !! n = Some c.

(** A result that is a two-element array. *)
Definition is_pair (v : json) : bool :=
  match v with
  | JArr [_; _] => true
  | _ => false
  end.

(** ** Invariants *)

(** The queue invariant of the data model. *)
Definition queue_inv (st : State) : Prop :=
  connected st = true → queue st = [].

(** Every queued reference is a reference to an object. *)
Definition refs_ok (st : State) : Prop :=
  Forall (λ r, (r < length (heap st))%nat) (queue st).

(** The correlation table: keys are identifiers already assigned, and each
    entry holds the wrapper of a promise of its own that is still pending
    and was never completed. *)
Record table_ok (st : State) : Prop := {
  counter_nonneg : 0 ≤ messageId st;
  keys_assigned : ∀ n c, messageRequests st !! n = Some c → 0 < n ≤ messageId st;
  entry_pending : ∀ n c, messageRequests st !! n = Some c →
      reject c = resolve c ∧
      promises st !! resolve c = Some Pending ∧
      completions (resolve c) (trace st) = [];
  entry_own : ∀ n n' c c', messageRequests st !! n = Some c →
      messageRequests st !! n' = Some c' → resolve c = resolve c' → n = n';
  completed_exist : ∀ p, (length (promises st) ≤ p)%nat →
      completions p (trace st) = [];
}.

(** Two states with the same correlation state: counter, table, promises
    and the completions called so far. *)
Definition same_table (st st' : State) : Prop :=
  messageId st' = messageId st ∧
  messageRequests st' = messageRequests st ∧
  promises st' = promises st ∧
  ∀ p, completions p (trace st') = completions p (trace st).

(** The call of [rpc] that got identifier [n] and promise [p] has been
    answered: its entry is gone, no entry holds the wrapper of [p], and
    [n] is an identifier of the past. *)
Record retired (n : Z) (p : Promise) (st : State) : Prop := {
  retired_gone : messageRequests st !! n = None;
  retired_past : n ≤ messageId st;
  retired_known : (p < length (promises st))%nat;
  retired_unheld : ∀ n' c, messageRequests st !! n' = Some c → resolve c ≠ p;
}.

(** The call is the delivery of a message with identifier [n]. *)
Definition is_response_to (n : Z) (c : Call) : bool :=
  match c with
  | Message msg => bool_decide (rsp_id msg = Some n)
  | _ => false
  end.

(** What [JSON.stringify] gives for the object behind [r] once [notify] has
    stamped it. *)
Definition frame_of (h : list RpcRequest) (r : Ref) : option RpcRequest :=
  stamp <$> h !! r.

(** ** Notions for the properties of whole runs *)

(** The frames sent, each with the socket it was sent on. *)
Fixpoint frames (t : list Effect) : list (WebSocket * RpcRequest) :=
  match t with
  | [] => []
  | WsSend ws frame :: t' => (ws, frame) :: frames t'
  | _ :: t' => frames t'
  end.

(** The sockets created. *)
Fixpoint created (t : list Effect) : list WebSocket :=
  match t with
  | [] => []
  | WsNew ws _ :: t' => ws :: created t'
  | _ :: t' => created t'
  end.

(** The calls of [rpc] in a run. *)
Fixpoint rpc_calls (cs : list Call) : nat :=
  match cs with
  | [] => 0
  | Rpc _ :: cs' => S (rpc_calls cs')
  | _ :: cs' => rpc_calls cs'
  end.

(** [connected] is set only while there is a session, and the session is
    one of the sockets created so far. *)
Definition socket_inv (st : State) : Prop :=
  (connected st = true → is_Some (websocket st)) ∧
  (∀ ws, websocket st = Some ws → (ws < sockets st)%nat) ∧
  (∀ ws, In ws (created (trace st)) → (ws < sockets st)%nat).

(** Only [connect] touches the session and creates sockets. *)
Definition same_session (st st' : State) : Prop :=
  websocket st' = websocket st ∧ sockets st' = sockets st ∧
  created (trace st') = created (trace st).

(** The number of calls of resolve wrappers so far. *)
Fixpoint completed (t : list Effect) : nat :=
  match t with
  | [] => 0
  | Completion _ _ :: t' => S (completed t')
  | _ :: t' => completed t'
  end.

(** * Properties *)

(** ** The methods in closed form *)

Ltac run_monad :=
  unfold connect, notify, rpc, onopen, onclose, onmessage, broadcast,
    call_resolve, assign, settle, emit, new_Promise,
    bind, modify, gets, ret, throw; simpl.

Lemma connect_eq url st :
  connect url st =
    (Ret tt,
     set_websocket (Some (sockets st))
       (log (WsNew (sockets st) url)
          (set_sockets (S (sockets st))
             (match websocket st with
              | Some ws => log (WsClose ws) st
              | None => st
              end)))).
Proof. run_monad. destruct (websocket st); reflexivity. Qed.

Lemma notify_eq message st :
  notify message st =
    match heap st !! message with
    | None => (Throw ThrowTypeError, st)
    | Some o =>
        let st1 := set_heap (<[message := stamp o]> (heap st)) st in
        if connected st then
          match websocket st with
          | Some ws => (Ret tt, log (WsSend ws (stamp o)) st1)
          | None => (Throw ThrowTypeError, st1)
          end
        else (Ret tt, set_queue (queue st ++ [message]) st1)
    end.
Proof.
  run_monad. destruct (heap st !! message) as [o|] eqn:Ho; simpl; [|done].
  destruct (connected st); simpl; [|done].
  destruct (websocket st); simpl; [|done].
  rewrite list_lookup_insert_eq; [done|]. by eapply lookup_lt_Some.
Qed.

Lemma rpc_eq message st :
  rpc message st =
    let n := messageId st + 1 in
    let p := length (promises st) in
    let st1 :=
      set_messageRequests (<[n := mkCache p p]> (messageRequests st))
        (set_promises (promises st ++ [Pending]) (set_messageId n st)) in
    match heap st !! message with
    | None => (Throw ThrowTypeError, st1)
    | Some o =>
        let o' := stamp (with_id n o) in
        let st2 := set_heap (<[message := o']> (heap st)) st1 in
        if connected st then
          match websocket st with
          | Some ws => (Ret p, log (WsSend ws o') st2)
          | None => (Throw ThrowTypeError, st2)
          end
        else (Ret p, set_queue (queue st ++ [message]) st2)
    end.
Proof.
  unfold rpc, bind at 1 2 3 4 5. unfold modify, gets, new_Promise; simpl.
  unfold bind at 1. unfold assign at 1. unfold bind, gets, modify, throw; simpl.
  destruct (heap st !! message) as [o|] eqn:Ho; simpl; [|done].
  assert (message < length (heap st))%nat as Hlt by by eapply lookup_lt_Some.
  rewrite notify_eq; simpl.
  rewrite list_lookup_insert_eq by done. simpl.
  rewrite list_insert_insert_eq.
  destruct (connected st); simpl; [|done].
  destruct (websocket st); done.
Qed.

Lemma onmessage_eq msg st :
  onmessage msg st =
    match pending_entry msg st with
    | Some (n, c) =>
        let st1 := log (Completion (resolve c) msg) st in
        let st2 :=
          match promises st !! resolve c with
          | Some Pending =>
              set_promises (<[resolve c := settled msg]> (promises st)) st1
          | _ => st1
          end in
        (Ret tt, set_messageRequests (delete n (messageRequests st)) st2)
    | None => broadcast msg st
    end.
Proof.
  unfold onmessage, bind at 1, gets; simpl.
  destruct (pending_entry msg st) as [[n c]|]; [|done].
  run_monad. unfold settled.
  destruct (rsp_error msg); simpl;
    destruct (promises st !! resolve c) as [[]|]; reflexivity.
Qed.

Lemma broadcast_eq msg st :
  broadcast msg st =
    match rsp_error msg with
    | Some error => (Throw (ThrowError (new_Error (err_message error))), st)
    | None =>
        match rsp_result msg with
        | Some (JArr items) =>
            (Ret tt, log (Emit (items !! 0%nat) [items !! 1%nat]) st)
        | _ => (Ret tt, st)
        end
    end.
Proof.
  run_monad. destruct (rsp_error msg); [done|].
  destruct (rsp_result msg) as [[]|]; simpl; try done; by case_match.
Qed.

Lemma pending_entry_Some msg st n c :
  pending_entry msg st = Some (n, c) ↔
  rsp_id msg = Some n ∧ 0 < n ∧ messageRequests st !! n = Some c.
Proof.
  unfold pending_entry. destruct (rsp_id msg) as [m|]; [|split; [done | by intros [? _]]].
  destruct (0 <? m) eqn:Hm; [apply Z.ltb_lt in Hm | apply Z.ltb_ge in Hm].
  - destruct (messageRequests st !! m) eqn:E; simpl; split.
    + intros [= <- <-]. done.
    + intros (Hn & _ & H). injection Hn as <-. rewrite E in H.
      by injection H as ->.
    + done.
    + intros (Hn & _ & H). injection Hn as <-. by rewrite E in H.
  - split; [done|]. intros (Hn & ? & _). injection Hn as <-. lia.
Qed.

Lemma pending_entry_None msg st :
  ¬ matches_pending msg st → pending_entry msg st = None.
Proof.
  intros Hno. destruct (pending_entry msg st) as [[n c]|] eqn:E; [|done].
  apply pending_entry_Some in E as (? & ? & ?). destruct Hno. by exists n, c.
Qed.

(** ** connect *)

(** C9. [connect] installs a new transport session and leaves the
    correlation table as it was: the same entries under the same
    identifiers, their promises in the same state, and no completion
    called. *)
Theorem connect_keeps_pending_requests (url : string) (st : State) :
  let st' := snd (connect url st) in
  fst (connect url st) = Ret tt ∧
  websocket st' = Some (sockets st) ∧
  In (WsNew (sockets st) url) (trace st') ∧
  messageRequests st' = messageRequests st ∧
  promises st' = promises st ∧
  (∀ p, completions p (trace st') = completions p (trace st)) ∧
  (∀ n c, messageRequests st !! n = Some c →
     messageRequests st' !! n = Some c ∧
     promises st' !! resolve c = promises st !! resolve c).
Proof.
  rewrite connect_eq. simpl.
  assert (∀ p e, (∀ q r, e ≠ Completion q r) → ∀ t,
            completions p (t ++ [e]) = completions p t) as Hc.
  { intros p e He t. induction t as [|x t IH]; simpl.
    - destruct e; try done. by destruct (He p0 response).
    - destruct x; try done. rewrite IH. done. }
  repeat split; try done.
  - destruct (websocket st); simpl; apply in_or_app; right; by left.
  - by destruct (websocket st).
  - by destruct (websocket st).
  - intros p. destruct (websocket st); simpl; rewrite !Hc; done.
  - by destruct (websocket st).
  - by destruct (websocket st).
Qed.


(** ** The message handler on messages that match no pending entry *)

(** C6. A message that carries an error and the identifier of no pending
    entry makes the handler throw an [Error] with the server's message;
    the state is what it was: no promise settled, no entry removed, no
    completion called. *)
Theorem uncorrelated_error_is_thrown (msg : RpcResponse) (st : State)
    (error : RpcError) :
  rsp_error msg = Some error →
  ¬ matches_pending msg st →
  onmessage msg st = (Throw (ThrowError (new_Error (err_message error))), st).
Proof.
  intros He Hno. rewrite onmessage_eq, pending_entry_None by done.
  rewrite broadcast_eq, He. done.
Qed.

Lemma uncorrelated_error_is_thrown_witness :
  let msg := mkResponse "2.0" None None (Some (mkError (-1) "boom" None)) in
  onmessage msg init = (Throw (ThrowError (new_Error "boom")), init).
Proof.
  simpl. apply (uncorrelated_error_is_thrown _ init (mkError (-1) "boom" None)).
  - reflexivity.
  - intros (n & c & Hid & _). discriminate Hid.
Defined.

(** C3, as the code has it. For a message that matches no pending entry and
    carries no error, a result that is not an array is ignored: the handler
    returns, and the state is what it was, so no signal was raised. *)
Theorem non_array_result_is_ignored (msg : RpcResponse) (st : State) :
  ¬ matches_pending msg st →
  rsp_error msg = None →
  (∀ items, rsp_result msg ≠ Some (JArr items)) →
  onmessage msg st = (Ret tt, st).
Proof.
  intros Hno He Hna. rewrite onmessage_eq, pending_entry_None by done.
  rewrite broadcast_eq, He.
  destruct (rsp_result msg) as [[]|]; try done. by destruct (Hna items).
Qed.

Lemma non_array_result_is_ignored_witness :
  let msg := mkResponse "2.0" None (Some (JStr "not-a-pair")) None in
  onmessage msg init = (Ret tt, init).
Proof.
  intros msg. apply (non_array_result_is_ignored msg init).
  - intros (n & c & Hid & _). discriminate Hid.
  - reflexivity.
  - intros items H. discriminate H.
Defined.

(** The test on the result is [Array.isArray] and nothing more: an array of
    any length raises the signal named by its first element with its second
    element as argument, each [undefined] when the array is too short. The
    name ["error"] is left out: for it the inherited [emit] throws when no
    listener is registered, and listeners are not part of this model. *)
Lemma array_result_raises_signal (msg : RpcResponse) (st : State) items :
  ¬ matches_pending msg st →
  rsp_error msg = None →
  rsp_result msg = Some (JArr items) →
  items !! 0%nat ≠ Some (JStr "error") →
  onmessage msg st = (Ret tt, log (Emit (items !! 0%nat) [items !! 1%nat]) st).
Proof.
  intros Hno He Hr _. rewrite onmessage_eq, pending_entry_None by done.
  by rewrite broadcast_eq, He, Hr.
Qed.

(** C3, as stated, fails: a one-element array is a result that is present
    and is not a two-element pair, and a signal is raised for it. *)
Lemma short_array_raises_signal :
  let msg := mkResponse "2.0" None (Some (JArr [JStr "priceUpdate"])) None in
  rsp_id msg = None ∧
  rsp_error msg = None ∧
  (∃ v, rsp_result msg = Some v ∧ is_pair v = false) ∧
  onmessage msg init ≠ (Ret tt, init) ∧
  emitted (trace (snd (onmessage msg init))) =
    [(Some (JStr "priceUpdate"), [None])].
Proof.
  simpl. repeat split; try done.
  by eexists.
Qed.

(** ** notify and rpc write to the caller's object *)

(** C10. [notify] writes the version tag into the object behind the
    reference it was given, and [rpc] writes the new identifier as well;
    no other object changes. What is put on the queue is that reference,
    and what is sent is the contents of that object as just written. *)
Theorem requests_are_mutated_in_place (message : Ref) (o : RpcRequest)
    (st : State) :
  heap st !! message = Some o →
  (let st' := snd (notify message st) in
   let o' := stamp o in
   req_jsonrpc o' = Some "2.0"%string ∧
   heap st' = <[message := o']> (heap st) ∧
   heap st' !! message = Some o' ∧
   (∀ r, r ≠ message → heap st' !! r = heap st !! r) ∧
   (connected st = false →
      fst (notify message st) = Ret tt ∧
      queue st' = queue st ++ [message] ∧ trace st' = trace st) ∧
   (∀ ws, connected st = true → websocket st = Some ws →
      fst (notify message st) = Ret tt ∧
      queue st' = queue st ∧ trace st' = trace st ++ [WsSend ws o'])) ∧
  (let st' := snd (rpc message st) in
   let n := messageId st + 1 in
   let o' := stamp (with_id n o) in
   req_jsonrpc o' = Some "2.0"%string ∧
   req_id o' = Some n ∧
   messageId st' = n ∧
   heap st' = <[message := o']> (heap st) ∧
   heap st' !! message = Some o' ∧
   (∀ r, r ≠ message → heap st' !! r = heap st !! r) ∧
   (connected st = false →
      queue st' = queue st ++ [message] ∧ trace st' = trace st) ∧
   (∀ ws, connected st = true → websocket st = Some ws →
      queue st' = queue st ∧ trace st' = trace st ++ [WsSend ws o'])).
Proof.
  intros Ho.
  assert (message < length (heap st))%nat as Hlt by by eapply lookup_lt_Some.
  split.
  - rewrite notify_eq, Ho. simpl.
    destruct (connected st) eqn:Hc, (websocket st) as [ws0|] eqn:Hw; simpl;
      (repeat split; try done;
       try (by apply list_lookup_insert_eq);
       try (by intros; apply list_lookup_insert_ne);
       try congruence).
  - rewrite rpc_eq, Ho. simpl.
    destruct (connected st) eqn:Hc, (websocket st) as [ws0|] eqn:Hw; simpl;
      (repeat split; try done;
       try (by apply list_lookup_insert_eq);
       try (by intros; apply list_lookup_insert_ne);
       try congruence).
Qed.

Lemma requests_are_mutated_in_place_witness :
  let o := mkRequest None None "ping" None in
  let st := set_heap [o] init in
  heap (snd (notify 0%nat st)) = [mkRequest (Some "2.0"%string) None "ping" None] ∧
  heap (snd (rpc 0%nat st)) = [mkRequest (Some "2.0"%string) (Some 1) "ping" None].
Proof.
  simpl.
  pose proof (requests_are_mutated_in_place 0%nat
                (mkRequest None None "ping" None)
                (set_heap [mkRequest None None "ping" None] init)
                eq_refl) as [Hn Hr].
  split.
  - apply Hn.
  - apply Hr.
Defined.

(** ** What the calls leave alone *)

Lemma completions_app p t1 t2 :
  completions p (t1 ++ t2) = completions p t1 ++ completions p t2.
Proof.
  induction t1 as [|e t1 IH]; simpl; [done|].
  destruct e; try done. case_decide; simpl; by rewrite IH.
Qed.

Lemma same_table_refl st : same_table st st.
Proof. by repeat split. Qed.

Lemma same_table_trans st1 st2 st3 :
  same_table st1 st2 → same_table st2 st3 → same_table st1 st3.
Proof.
  intros (? & ? & ? & Hc1) (? & ? & ? & Hc2). repeat split; congruence.
Qed.

Lemma notify_same_table message st : same_table st (snd (notify message st)).
Proof.
  rewrite notify_eq. destruct (heap st !! message); [|apply same_table_refl].
  simpl. destruct (connected st); [destruct (websocket st)|]; simpl;
    repeat split; simpl; try done.
  intros p. rewrite completions_app. simpl. by rewrite app_nil_r.
Qed.

Lemma drain_same_table n : ∀ st, same_table st (snd (drain n st)).
Proof.
  induction n as [|n IH]; intros st; simpl.
  - destruct (queue st); apply same_table_refl.
  - destruct (queue st) as [|r rest] eqn:Hq; [apply same_table_refl|].
    pose proof (notify_same_table r (set_queue rest st)) as Hn.
    destruct (notify r (set_queue rest st)) as [[[]| |] st'] eqn:E;
      simpl in *; try exact Hn.
    eapply same_table_trans; [exact Hn | apply IH].
Qed.

Lemma onopen_same_table st : same_table st (snd (onopen st)).
Proof.
  unfold onopen, bind at 1 2, modify, gets; simpl.
  pose proof (drain_same_table (length (queue st)) (set_connected true st)) as Hd.
  unfold bind.
  destruct (drain (length (queue st)) (set_connected true st)) as [[[]| |] st'];
    simpl in *; try exact Hd.
  unfold emit, modify; simpl. destruct Hd as (? & ? & ? & Hc).
  repeat split; simpl; try done.
  intros p. rewrite completions_app. simpl. by rewrite app_nil_r.
Qed.

(** Only [rpc] and the message handler touch the correlation state. *)
Lemma step_same_table c st :
  (∀ r, c ≠ Rpc r) → (∀ msg, c ≠ Message msg) → same_table st (after c st).
Proof.
  intros Hr Hm. unfold after. destruct c; simpl.
  - rewrite connect_eq. simpl. repeat split; simpl; try done.
    + by destruct (websocket st).
    + by destruct (websocket st).
    + by destruct (websocket st).
    + intros p. destruct (websocket st); simpl;
        rewrite !completions_app; simpl; by rewrite !app_nil_r.
  - apply notify_same_table.
  - by destruct (Hr message).
  - apply onopen_same_table.
  - run_monad. repeat split; simpl; try done.
    intros p. rewrite completions_app. simpl. by rewrite app_nil_r.
  - by destruct (Hm msg).
  - by repeat split.
  - by repeat split.
Qed.

Lemma table_ok_same st st' : same_table st st' → table_ok st → table_ok st'.
Proof.
  intros (Hi & Ht & Hp & Hc) [H1 H2 H3 H4 H5].
  split; rewrite ?Hi, ?Ht, ?Hp; try done.
  - intros n c Hn. rewrite Hc. by apply (H3 n).
  - intros p Hl. rewrite Hc. by apply H5.
Qed.

Lemma rpc_table message st :
  let st' := snd (rpc message st) in
  messageId st' = messageId st + 1 ∧
  messageRequests st' =
    <[messageId st + 1 := mkCache (length (promises st)) (length (promises st))]>
      (messageRequests st) ∧
  promises st' = promises st ++ [Pending] ∧
  ∀ p, completions p (trace st') = completions p (trace st).
Proof.
  rewrite rpc_eq. simpl.
  destruct (heap st !! message); simpl; [|done].
  destruct (connected st); [destruct (websocket st)|]; simpl;
    repeat split; try done.
  intros p. rewrite completions_app. simpl. by rewrite app_nil_r.
Qed.

Lemma broadcast_same_table msg st : same_table st (snd (broadcast msg st)).
Proof.
  rewrite broadcast_eq. destruct (rsp_error msg); [apply same_table_refl|].
  destruct (rsp_result msg) as [[]|]; try apply same_table_refl.
  simpl. repeat split; simpl; try done.
  intros p. rewrite completions_app. simpl. by rewrite app_nil_r.
Qed.

Lemma table_ok_rpc message st : table_ok st → table_ok (snd (rpc message st)).
Proof.
  intros [H1 H2 H3 H4 H5].
  destruct (rpc_table message st) as (Hi & Ht & Hp & Hc).
  split; rewrite ?Hi, ?Ht, ?Hp.
  - lia.
  - intros n c. rewrite lookup_insert. case_decide as E.
    + intros _. lia.
    + intros Hn. apply H2 in Hn. lia.
  - intros n c. rewrite lookup_insert, Hc. case_decide as E.
    + intros [= <-]. simpl. split; [done|]. split.
      * by apply list_lookup_middle.
      * by apply H5.
    + intros Hn. destruct (H3 n c Hn) as (? & ? & ?).
      split; [done|]. split; [|done]. by apply lookup_app_l_Some.
  - intros n n' c c'. rewrite !lookup_insert.
    repeat case_decide; subst; try done.
    + intros [= <-] Hn' Hr. simpl in Hr.
      destruct (H3 n' c' Hn') as (_ & Hp' & _).
      apply lookup_lt_Some in Hp'. lia.
    + intros Hn [= <-] Hr. simpl in Hr.
      destruct (H3 n c Hn) as (_ & Hp' & _).
      apply lookup_lt_Some in Hp'. lia.
    + apply H4.
  - intros p Hl. rewrite Hc. apply H5. rewrite length_app in Hl. simpl in Hl. lia.
Qed.

Lemma completions_snoc_ne p q response t :
  q ≠ p → completions p (t ++ [Completion q response]) = completions p t.
Proof.
  intros Hne. rewrite completions_app. simpl.
  case_decide; [done|]. by rewrite app_nil_r.
Qed.

Lemma table_ok_onmessage msg st : table_ok st → table_ok (snd (onmessage msg st)).
Proof.
  intros Hok. rewrite onmessage_eq.
  destruct (pending_entry msg st) as [[n c]|] eqn:E;
    [|by eapply table_ok_same; [apply broadcast_same_table|]].
  apply pending_entry_Some in E as (Hid & Hpos & Hn).
  destruct Hok as [H1 H2 H3 H4 H5].
  destruct (H3 n c Hn) as (Hrr & Hpend & Hnone).
  simpl. rewrite Hpend. split; simpl.
  - done.
  - intros n' c' [_ Hn']%lookup_delete_Some. by apply (H2 n' c').
  - intros n' c' [Hne Hn']%lookup_delete_Some.
    destruct (H3 n' c' Hn') as (? & ? & ?).
    assert (resolve c ≠ resolve c') as Hd.
    { intros Heq. apply Hne. by apply (H4 n n' c c'). }
    split; [done|]. split.
    + by rewrite list_lookup_insert_ne.
    + by rewrite completions_snoc_ne.
  - intros n1 n2 c1 c2 [_ Hn1]%lookup_delete_Some [_ Hn2]%lookup_delete_Some.
    by apply H4.
  - intros p Hl. rewrite length_insert in Hl.
    apply lookup_lt_Some in Hpend.
    rewrite completions_snoc_ne by lia. by apply H5.
Qed.

Lemma table_ok_init : table_ok init.
Proof. split; simpl; try done; intros *; by rewrite ?lookup_empty. Qed.

Lemma table_ok_step c st : table_ok st → table_ok (after c st).
Proof.
  intros Hok. destruct c;
    try (by eapply table_ok_same; [apply step_same_table|]).
  - unfold after. simpl. unfold bind, ret.
    pose proof (table_ok_rpc message st Hok) as H.
    by destruct (rpc message st) as [[]?].
  - by apply table_ok_onmessage.
Qed.

(** ** The queue *)

Lemma frame_of_stamped (h : list RpcRequest) (r r' : nat) (o : RpcRequest) :
  h !! r = Some o → frame_of (<[r := stamp o]> h) r' = frame_of h r'.
Proof.
  intros Ho. unfold frame_of. destruct (decide (r = r')) as [Heq|Hne].
  - subst r'. rewrite list_lookup_insert_eq by by eapply lookup_lt_Some.
    by rewrite Ho.
  - by rewrite list_lookup_insert_ne.
Qed.

Lemma frames_exist (h : list RpcRequest) (q : list nat) :
  Forall (λ r, (r < length h)%nat) q →
  ∃ fs, Forall2 (λ r f, frame_of h r = Some f) q fs.
Proof.
  induction 1 as [|r q Hr _ [fs IH]]; [by exists []|].
  apply lookup_lt_is_Some in Hr as [o Ho].
  exists (stamp o :: fs). constructor; [|done]. unfold frame_of. by rewrite Ho.
Qed.

Lemma drain_S n st :
  drain (S n) st =
    match queue st with
    | [] => (Ret tt, st)
    | message :: rest =>
        match notify message (set_queue rest st) with
        | (Ret _, st') => drain n st'
        | other => other
        end
    end.
Proof. reflexivity. Qed.

(** With [connected] set, the loop sends the queue in order, leaves it
    empty, and the length of the queue is fuel enough. *)
Lemma drain_connected n : ∀ st ws fs,
  connected st = true →
  websocket st = Some ws →
  Forall2 (λ r f, frame_of (heap st) r = Some f) (queue st) fs →
  (length (queue st) ≤ n)%nat →
  ∃ st', drain n st = (Ret tt, st') ∧
    queue st' = [] ∧ connected st' = true ∧ websocket st' = Some ws ∧
    trace st' = trace st ++ (WsSend ws <$> fs) ∧
    length (heap st') = length (heap st) ∧
    (∀ r, frame_of (heap st') r = frame_of (heap st) r).
Proof.
  induction n as [|n IH]; intros st ws fs Hc Hw Hfs Hlen.
  - destruct (queue st) as [|r rest] eqn:Hq; [|simpl in Hlen; lia].
    apply Forall2_nil_inv_l in Hfs as ->.
    exists st. simpl. rewrite Hq, app_nil_r. done.
  - rewrite drain_S. destruct (queue st) as [|r rest] eqn:Hq.
    + apply Forall2_nil_inv_l in Hfs as ->.
      exists st. rewrite app_nil_r. done.
    + apply Forall2_cons_inv_l in Hfs as (f & fs' & Hf & Hfs' & ->).
      unfold frame_of in Hf.
      destruct (heap st !! r) as [o|] eqn:Ho; [|done].
      injection Hf as <-.
      rewrite notify_eq. simpl. rewrite Ho, Hc, Hw.
      destruct (IH (log (WsSend ws (stamp o))
                      (set_heap (<[r := stamp o]> (heap st)) (set_queue rest st)))
                   ws fs') as (st' & Hd & ? & ? & ? & Ht & Hl & Hfr); simpl; try done.
      * eapply Forall2_impl; [exact Hfs'|]. simpl. intros r' f' <-.
        by apply frame_of_stamped.
      * simpl in Hlen. lia.
      * exists st'. simpl in *. rewrite Hd. repeat split; try done.
        -- rewrite Ht. by rewrite <- app_assoc.
        -- rewrite Hl. by rewrite length_insert.
        -- intros r'. rewrite Hfr. by apply frame_of_stamped.
Qed.

Lemma onopen_connected st ws fs :
  websocket st = Some ws →
  Forall2 (λ r f, frame_of (heap st) r = Some f) (queue st) fs →
  ∃ st', onopen st = (Ret tt, st') ∧
    queue st' = [] ∧ connected st' = true ∧ websocket st' = Some ws ∧
    trace st' = trace st ++ (WsSend ws <$> fs) ++ [Emit (Some (JStr "open")) []] ∧
    length (heap st') = length (heap st) ∧
    (∀ r, frame_of (heap st') r = frame_of (heap st) r).
Proof.
  intros Hw Hfs.
  destruct (drain_connected (length (queue st)) (set_connected true st) ws fs)
    as (st1 & Hd & ? & ? & ? & Ht & ? & ?); simpl; try done.
  exists (log (Emit (Some (JStr "open")) []) st1).
  unfold onopen, bind at 1 2, modify, gets; simpl.
  unfold bind. rewrite Hd. unfold emit, modify. simpl in *.
  repeat split; try done. rewrite Ht. by rewrite <- app_assoc.
Qed.

Lemma onmessage_queue msg st :
  let st' := snd (onmessage msg st) in
  queue st' = queue st ∧ connected st' = connected st ∧ heap st' = heap st ∧
  websocket st' = websocket st ∧ sockets st' = sockets st.
Proof.
  rewrite onmessage_eq. destruct (pending_entry msg st) as [[n c]|].
  - simpl. by destruct (promises st !! resolve c) as [[]|].
  - rewrite broadcast_eq. destruct (rsp_error msg); [done|].
    by destruct (rsp_result msg) as [[]|].
Qed.

(** Each call keeps the queue invariant, and keeps the queue a list of
    references to objects. *)
Lemma step_queue_inv c st :
  refs_ok st → queue_inv st → enabled c st = true →
  refs_ok (after c st) ∧ queue_inv (after c st).
Proof.
  unfold refs_ok, queue_inv, after. intros Hrefs Hinv Hen.
  destruct c; simpl in *.
  - rewrite connect_eq. simpl. by destruct (websocket st).
  - rewrite notify_eq. destruct (heap st !! message) as [o|] eqn:Ho; [|done].
    simpl. destruct (connected st) eqn:Hc; [destruct (websocket st)|]; simpl;
      rewrite ?length_insert; try (split; [done | auto]).
    split; [|by rewrite Hc]. apply Forall_app. split; [done|].
    apply Forall_singleton. by eapply lookup_lt_Some.
  - unfold bind, ret.
    destruct (rpc message st) as [[p| |] st'] eqn:E; simpl;
      apply (f_equal snd) in E; simpl in E; subst st';
      rewrite rpc_eq; simpl;
      (destruct (heap st !! message) as [o|] eqn:Ho; [|done]);
      simpl; (destruct (connected st) eqn:Hc; [destruct (websocket st)|]);
      simpl; rewrite ?length_insert; try (split; [done | auto]);
      (split; [|by rewrite Hc]); apply Forall_app; (split; [done|]);
      apply Forall_singleton; by eapply lookup_lt_Some.
  - destruct (websocket st) as [ws|] eqn:Hw; [|done].
    destruct (frames_exist _ _ Hrefs) as [fs Hfs].
    destruct (onopen_connected st ws fs Hw Hfs) as (st' & -> & Hq & _).
    simpl. rewrite Hq. split; [constructor | done].
  - run_monad. done.
  - destruct (onmessage_queue msg st) as (-> & -> & -> & _). done.
  - split; [|done]. eapply Forall_impl; [exact Hrefs|].
    simpl. intros r Hr. rewrite length_app. lia.
  - by rewrite length_insert.
Qed.

Lemma reachable_inv st :
  reachable st → table_ok st ∧ refs_ok st ∧ queue_inv st.
Proof.
  induction 1 as [|st c _ (Ht & Hr & Hq) Hen].
  - split; [apply table_ok_init|]. split; [constructor | done].
  - split; [by apply table_ok_step|]. by apply step_queue_inv.
Qed.

(** C7. In a reachable state the queue is empty whenever [connected] is
    set, and this is again so after any call of [connect], [notify] or
    [rpc] and any run of the open, close or message handler. (States
    between two iterations of the loop of the open handler are not states
    of this system: a call is one transition.) *)
Theorem queue_empty_when_connected (st : State) :
  reachable st →
  queue_inv st ∧
  (∀ c, enabled c st = true → queue_inv (after c st)) ∧
  (connected st = true → queue st = []).
Proof.
  intros Hreach. destruct (reachable_inv st Hreach) as (_ & Hr & Hq).
  split; [done|]. split; [|done].
  intros c Hen. by apply step_queue_inv.
Qed.

Lemma queue_empty_when_connected_witness :
  let st := exec [NewObject (mkRequest None None "ping" None);
                  Notify 0%nat; Connect "ws://a"; Open] init in
  connected st = true ∧ queue st = [].
Proof.
  intros st. split; [reflexivity|].
  refine (proj2 (proj2 (queue_empty_when_connected st _)) eq_refl).
  subst st. cbn [exec].
  apply (reachable_step _ Open); [|reflexivity].
  apply (reachable_step _ (Connect "ws://a")); [|reflexivity].
  apply (reachable_step _ (Notify 0%nat)); [|reflexivity].
  apply (reachable_step _ (NewObject (mkRequest None None "ping" None)));
    [|reflexivity].
  apply reachable_init.
Defined.

Lemma notify_each_disconnected messages : ∀ st fs,
  connected st = false →
  Forall2 (λ r f, frame_of (heap st) r = Some f) messages fs →
  ∃ st', notify_each messages st = (Ret tt, st') ∧
    queue st' = queue st ++ messages ∧ connected st' = false ∧
    websocket st' = websocket st ∧ sockets st' = sockets st ∧
    trace st' = trace st ∧
    length (heap st') = length (heap st) ∧
    (∀ r, frame_of (heap st') r = frame_of (heap st) r).
Proof.
  induction messages as [|r rest IH]; intros st fs Hc Hfs.
  - exists st. simpl. by rewrite app_nil_r.
  - apply Forall2_cons_inv_l in Hfs as (f & fs' & Hf & Hfs' & ->).
    unfold frame_of in Hf.
    destruct (heap st !! r) as [o|] eqn:Ho; [|done].
    injection Hf as <-.
    simpl. unfold bind. rewrite notify_eq. simpl. rewrite Ho, Hc.
    destruct (IH (set_queue (queue st ++ [r])
                    (set_heap (<[r := stamp o]> (heap st)) st)) fs')
      as (st' & -> & Hq & ? & ? & ? & ? & Hl & Hfr); simpl; try done.
    + eapply Forall2_impl; [exact Hfs'|]. simpl. intros r' f' <-.
      by apply frame_of_stamped.
    + exists st'. simpl in *. repeat split; try done.
      * rewrite Hq. by rewrite <- app_assoc.
      * rewrite Hl. by rewrite length_insert.
      * intros r'. rewrite Hfr. by apply frame_of_stamped.
Qed.

(** C2. Take a disconnected client and any sequence of calls of [notify],
    each on a reference to an object, followed or not by a call of
    [connect]. Nothing is sent by those calls. When the open handler then
    runs, it sends on the current session one frame per queued reference,
    in the order of the queue, which is the order of the calls; only then
    does it raise the open signal; and a message given to [notify] after
    that is sent after all of them. *)
Theorem queued_messages_sent_in_order (st : State) (messages : list Ref)
    (os : list RpcRequest) (reconnect : option string) (ws : WebSocket) :
  connected st = false →
  Forall2 (λ r o, heap st !! r = Some o) (queue st ++ messages) os →
  ∀ st1 st1',
    st1 = snd (notify_each messages st) →
    st1' = match reconnect with
           | Some url => snd (connect url st1)
           | None => st1
           end →
    websocket st1' = Some ws →
    ∃ st2,
      fst (notify_each messages st) = Ret tt ∧
      trace st1 = trace st ∧
      queue st1' = queue st ++ messages ∧
      onopen st1' = (Ret tt, st2) ∧
      trace st2 =
        trace st1' ++ ((λ o, WsSend ws (stamp o)) <$> os)
                   ++ [Emit (Some (JStr "open")) []] ∧
      queue st2 = [] ∧
      connected st2 = true ∧
      (∀ message o, heap st2 !! message = Some o →
         ∃ st3, notify message st2 = (Ret tt, st3) ∧
                trace st3 = trace st2 ++ [WsSend ws (stamp o)]).
Proof.
  intros Hc Hos st1 st1' -> -> Hw.
  assert (Forall2 (λ r f, frame_of (heap st) r = Some f)
            (queue st ++ messages) (stamp <$> os)) as Hfs.
  { apply Forall2_fmap_r. eapply Forall2_impl; [exact Hos|].
    simpl. intros r o Ho. unfold frame_of. by rewrite Ho. }
  apply Forall2_app_inv_l in Hfs as (fq & fm & Hfq & Hfm & Hsplit).
  destruct (notify_each_disconnected messages st fm Hc Hfm)
    as (st1 & Hn & Hq1 & Hc1 & Hw1 & Hs1 & Ht1 & Hl1 & Hf1).
  rewrite Hn in *. simpl in *.
  set (st1' := match reconnect with
               | Some url => snd (connect url st1)
               | None => st1
               end) in *.
  assert (queue st1' = queue st1 ∧ heap st1' = heap st1) as [Hq' Hh'].
  { subst st1'. destruct reconnect as [url|]; [|done].
    rewrite connect_eq. simpl. by destruct (websocket st1). }
  destruct (onopen_connected st1' ws (stamp <$> os) Hw)
    as (st2 & Ho & Hq2 & Hc2 & Hw2 & Ht2 & Hl2 & Hf2).
  { rewrite Hq', Hh', Hq1, Hsplit. apply Forall2_app.
    - eapply Forall2_impl; [exact Hfq|]. simpl. intros r f <-. apply Hf1.
    - eapply Forall2_impl; [exact Hfm|]. simpl. intros r f <-. apply Hf1. }
  exists st2. repeat split; try done.
  - congruence.
  - rewrite Ht2. by rewrite <- list_fmap_compose.
  - intros message o Hm. rewrite notify_eq, Hm, Hc2, Hw2. simpl.
    by eexists.
Qed.

Lemma queued_messages_sent_in_order_witness :
  let ping := mkRequest None None "ping" None in
  let pong := mkRequest None None "pong" None in
  let st := set_heap [ping; pong] init in
  let st1' := snd (connect "ws://a" (snd (notify_each [1; 0]%nat st))) in
  ∃ st2, onopen st1' = (Ret tt, st2) ∧
    trace st2 = [WsNew 0%nat "ws://a";
                 WsSend 0%nat (stamp pong); WsSend 0%nat (stamp ping);
                 Emit (Some (JStr "open")) []].
Proof.
  intros ping pong st st1'.
  destruct (queued_messages_sent_in_order st [1; 0]%nat [pong; ping]
              (Some "ws://a"%string) 0%nat eq_refl)
    with (st1 := snd (notify_each [1; 0]%nat st)) (st1' := st1')
    as (st2 & _ & _ & _ & Ho & Ht & _).
  - repeat constructor.
  - reflexivity.
  - reflexivity.
  - reflexivity.
  - exists st2. split; [exact Ho | exact Ht].
Defined.

(** ** Identifiers *)

Lemma onmessage_messageId msg st :
  messageId (snd (onmessage msg st)) = messageId st.
Proof.
  rewrite onmessage_eq. destruct (pending_entry msg st) as [[n c]|].
  - simpl. by destruct (promises st !! resolve c) as [[]|].
  - by destruct (broadcast_same_table msg st) as (-> & _).
Qed.

Lemma step_rpc message st : after (Rpc message) st = snd (rpc message st).
Proof.
  unfold after. simpl. unfold bind, ret.
  by destruct (rpc message st) as [[]?].
Qed.

Lemma messageId_mono c st : messageId st ≤ messageId (after c st).
Proof.
  destruct c;
    try (match goal with
         | |- _ ≤ messageId (after ?c _) =>
             destruct (step_same_table c st) as (Heq & _);
             [intros ?; discriminate | intros ?; discriminate | rewrite Heq; lia]
         end).
  - rewrite step_rpc. destruct (rpc_table message st) as (-> & _). lia.
  - unfold after. simpl. rewrite onmessage_messageId. lia.
Qed.

Lemma exec_messageId_mono cs : ∀ st, messageId st ≤ messageId (exec cs st).
Proof.
  induction cs as [|c cs IH]; intros st; simpl; [done|].
  pose proof (messageId_mono c st). pose proof (IH (after c st)). lia.
Qed.

(** The counter grows by one per call at most. *)
Lemma messageId_bounded_by_calls cs : ∀ st,
  messageId (exec cs st) ≤ messageId st + Z.of_nat (length cs).
Proof.
  induction cs as [|c cs IH]; intros st; simpl length; cbn [exec]; [lia|].
  pose proof (IH (after c st)) as Hcs.
  assert (messageId (after c st) ≤ messageId st + 1) as Hc; [|lia].
  destruct c;
    try (match goal with
         | |- messageId (after ?c _) ≤ _ =>
             destruct (step_same_table c st) as (Heq & _);
             [intros ?; discriminate | intros ?; discriminate | rewrite Heq; lia]
         end).
  - rewrite step_rpc. destruct (rpc_table message st) as (-> & _). lia.
  - unfold after. simpl. rewrite onmessage_messageId. lia.
Qed.

(** C8. The identifier a call of [rpc] assigns is the counter plus one. It
    is positive, it is the key of the new entry and the [id] written on the
    message, it is larger than the key of every entry of the table, and
    the identifier of any later call of [rpc] is larger still, whatever
    happened in between, delivery of the answer included. *)
Theorem identifiers_strictly_increase (st : State) (message message' : Ref)
    (cs : list Call) :
  reachable st →
  let st1 := snd (rpc message st) in
  let st3 := snd (rpc message' (exec cs st1)) in
  let n := messageId st1 in
  let n' := messageId st3 in
  n = messageId st + 1 ∧
  0 < n ∧
  (∃ p, messageRequests st1 !! n = Some (mkCache p p)) ∧
  (∀ o, heap st !! message = Some o →
     ∃ o', heap st1 !! message = Some o' ∧ req_id o' = Some n) ∧
  (∀ k c, messageRequests st !! k = Some c → k < n) ∧
  n < n'.
Proof.
  intros Hreach. destruct (reachable_inv st Hreach) as ([H1 H2 _ _ _] & _ & _).
  simpl.
  destruct (rpc_table message st) as (Hi & Ht & _).
  destruct (rpc_table message' (exec cs (snd (rpc message st)))) as (Hi' & _).
  pose proof (exec_messageId_mono cs (snd (rpc message st))) as Hmono.
  rewrite Hi', Ht. rewrite Hi in *.
  repeat split; try lia.
  - eexists. apply lookup_insert_eq.
  - intros o Ho. rewrite rpc_eq, Ho. simpl.
    assert (message < length (heap st))%nat by by eapply lookup_lt_Some.
    exists (stamp (with_id (messageId st + 1) o)). split; [|reflexivity].
    destruct (connected st); [destruct (websocket st)|]; simpl;
      by apply list_lookup_insert_eq.
  - intros k c Hk. apply H2 in Hk. lia.
Qed.

Lemma identifiers_strictly_increase_witness :
  let st := exec [NewObject (mkRequest None None "ping" None)] init in
  let st1 := snd (rpc 0%nat st) in
  let st3 :=
    snd (rpc 0%nat
           (exec [Message (mkResponse "2.0" (Some 1) (Some (JStr "pong")) None)]
                 st1)) in
  messageId st1 = 1 ∧ messageRequests st3 !! 1 = None ∧ messageId st3 = 2.
Proof.
  intros st st1 st3.
  destruct (identifiers_strictly_increase st 0%nat 0%nat
              [Message (mkResponse "2.0" (Some 1) (Some (JStr "pong")) None)])
    as (Hn & _).
  - subst st. cbn [exec].
    apply (reachable_step _ (NewObject _)); [|reflexivity].
    apply reachable_init.
  - split; [exact Hn|]. split; reflexivity.
Defined.

(** ** Correlation of responses *)

(** An entry stays until a message with its identifier comes. *)
Lemma entry_kept n c0 call st :
  table_ok st → messageRequests st !! n = Some c0 →
  is_response_to n call = false →
  messageRequests (after call st) !! n = Some c0.
Proof.
  intros Hok Hn Hcall. destruct call;
    try (match goal with
         | |- messageRequests (after ?c _) !! _ = _ =>
             destruct (step_same_table c st) as (_ & Heq & _);
             [intros ?; discriminate | intros ?; discriminate | by rewrite Heq]
         end).
  - rewrite step_rpc. destruct (rpc_table message st) as (_ & -> & _).
    rewrite lookup_insert_ne; [done|].
    apply (keys_assigned _ Hok) in Hn. lia.
  - unfold after. simpl in *. apply bool_decide_eq_false in Hcall.
    rewrite onmessage_eq.
    destruct (pending_entry msg st) as [[n' c']|] eqn:E.
    + apply pending_entry_Some in E as (Hid & _ & _). simpl.
      rewrite lookup_delete_ne; [done|]. congruence.
    + by destruct (broadcast_same_table msg st) as (_ & -> & _).
Qed.

Lemma entry_kept_exec n c0 cs : ∀ st,
  table_ok st → messageRequests st !! n = Some c0 →
  forallb (λ c, negb (is_response_to n c)) cs = true →
  table_ok (exec cs st) ∧ messageRequests (exec cs st) !! n = Some c0.
Proof.
  induction cs as [|c cs IH]; intros st Hok Hn Hcs; simpl in *; [done|].
  apply andb_true_iff in Hcs as [Hc Hcs]. apply negb_true_iff in Hc.
  apply IH; [by apply table_ok_step | by apply entry_kept | done].
Qed.

(** The message with the identifier of an entry completes its promise and
    retires the entry. *)
Lemma onmessage_retires n c msg st :
  table_ok st → messageRequests st !! n = Some c → rsp_id msg = Some n →
  ∃ st', onmessage msg st = (Ret tt, st') ∧
    retired n (resolve c) st' ∧
    completions (resolve c) (trace st') = [msg] ∧
    promises st' !! resolve c = Some (settled msg) ∧
    (∀ n' c', n' ≠ n → messageRequests st !! n' = Some c' →
       messageRequests st' !! n' = Some c' ∧
       promises st' !! resolve c' = Some Pending ∧
       completions (resolve c') (trace st') = []).
Proof.
  intros Hok Hn Hid.
  destruct (entry_pending _ Hok n c Hn) as (_ & Hpend & Hnone).
  pose proof (keys_assigned _ Hok n c Hn) as Hkey.
  assert (pending_entry msg st = Some (n, c)) as E.
  { apply pending_entry_Some. split; [done|]. split; [lia | done]. }
  rewrite onmessage_eq, E. simpl. rewrite Hpend.
  eexists. split; [reflexivity|].
  assert (resolve c < length (promises st))%nat as Hlt
    by by eapply lookup_lt_Some.
  refine (conj _ (conj _ (conj _ _))); [split; simpl| | |]; simpl.
  - apply lookup_delete_eq.
  - lia.
  - by rewrite length_insert.
  - intros n' c' [Hne Hn']%lookup_delete_Some Heq.
    apply Hne. by apply (entry_own _ Hok n n' c c').
  - rewrite completions_app, Hnone. simpl. by case_decide.
  - by apply list_lookup_insert_eq.
  - intros n' c' Hne Hn'.
    destruct (entry_pending _ Hok n' c' Hn') as (_ & Hp' & Hc').
    assert (resolve c ≠ resolve c') as Hd.
    { intros Heq. apply Hne. symmetry. by apply (entry_own _ Hok n n' c c'). }
    split; [by rewrite lookup_delete_ne|]. split.
    + by rewrite list_lookup_insert_ne.
    + by rewrite completions_snoc_ne.
Qed.

(** Once retired, always retired: the promise is never completed again and
    keeps its state. *)
Lemma retired_step n p call st :
  table_ok st → retired n p st →
  retired n p (after call st) ∧
  completions p (trace (after call st)) = completions p (trace st) ∧
  promises (after call st) !! p = promises st !! p.
Proof.
  intros Hok [Hgone Hpast Hknown Hun]. destruct call;
    try (match goal with
         | |- context [after ?c _] =>
             destruct (step_same_table c st) as (Hi & Ht & Hp & Hc);
             [intros ?; discriminate | intros ?; discriminate |];
             rewrite Hp, Hc; split; [|done];
             split; rewrite ?Hi, ?Ht, ?Hp; done
         end).
  - rewrite step_rpc. destruct (rpc_table message st) as (Hi & Ht & Hp & Hc).
    rewrite Hp, Hc. split; [|split; [done|by apply lookup_app_l]].
    split; rewrite ?Hi, ?Ht, ?Hp.
    + rewrite lookup_insert_ne; [done | lia].
    + lia.
    + rewrite length_app. simpl. lia.
    + intros n' c. rewrite lookup_insert. case_decide.
      * intros [= <-]. simpl. lia.
      * apply Hun.
  - unfold after. simpl. rewrite onmessage_eq.
    destruct (pending_entry msg st) as [[n' c']|] eqn:E.
    + apply pending_entry_Some in E as (_ & _ & Hn').
      pose proof (Hun n' c' Hn') as Hne.
      destruct (entry_pending _ Hok n' c' Hn') as (_ & -> & _). simpl.
      split; [split; simpl|split].
      * rewrite lookup_delete_None. by right.
      * done.
      * by rewrite length_insert.
      * intros k c [_ Hk]%lookup_delete_Some. by apply (Hun k).
      * by apply completions_snoc_ne.
      * by apply list_lookup_insert_ne.
    + destruct (broadcast_same_table msg st) as (Hi & Ht & Hp & Hc).
      rewrite Hp, Hc. split; [|done].
      split; rewrite ?Hi, ?Ht, ?Hp; done.
Qed.

Lemma retired_exec n p cs : ∀ st,
  table_ok st → retired n p st →
  table_ok (exec cs st) ∧ retired n p (exec cs st) ∧
  completions p (trace (exec cs st)) = completions p (trace st) ∧
  promises (exec cs st) !! p = promises st !! p.
Proof.
  induction cs as [|c cs IH]; intros st Hok Hret; simpl; [done|].
  destruct (retired_step n p c st Hok Hret) as (Hret' & Hc & Hp).
  destruct (IH (after c st)) as (? & ? & Hc' & Hp');
    [by apply table_ok_step | done|].
  refine (conj _ (conj _ (conj _ _))); [done | done | congruence | congruence].
Qed.

Lemma rpc_registers message st p st1 :
  table_ok st → rpc message st = (Ret p, st1) →
  table_ok st1 ∧ messageRequests st1 !! messageId st1 = Some (mkCache p p).
Proof.
  intros Hok Hrpc.
  pose proof (table_ok_rpc message st Hok) as Hok1.
  destruct (rpc_table message st) as (Hi & Ht & _).
  assert (p = length (promises st)) as ->.
  { rewrite rpc_eq in Hrpc. simpl in Hrpc.
    destruct (heap st !! message); [|done].
    destruct (connected st); [destruct (websocket st)|]; congruence. }
  rewrite Hrpc in *. simpl in *. split; [done|].
  rewrite Hi, Ht. apply lookup_insert_eq.
Qed.

(** C1. A call of [rpc] that returned promise [p] was given identifier [n].
    Whatever calls follow, as long as none of them delivers a message with
    identifier [n], the entry for [n] is there and [p] is pending, its
    wrapper never called. The first message with identifier [n] then calls
    the wrapper once, which fulfils [p] with the result of the message, or
    rejects it when the message carries an error, and removes the entry.
    From then on, whatever calls follow, the wrapper of [p] is not called
    again, [p] keeps its state, and a message with identifier [n] is
    handled as a message that matches no entry. *)
Theorem response_completes_call_once (st : State) (message : Ref)
    (p : Promise) (st1 : State) (cs : list Call) (msg : RpcResponse) :
  reachable st →
  rpc message st = (Ret p, st1) →
  let n := messageId st1 in
  forallb (λ c, negb (is_response_to n c)) cs = true →
  rsp_id msg = Some n →
  let st2 := exec cs st1 in
  messageRequests st2 !! n = Some (mkCache p p) ∧
  promises st2 !! p = Some Pending ∧
  completions p (trace st2) = [] ∧
  ∃ st3,
    onmessage msg st2 = (Ret tt, st3) ∧
    completions p (trace st3) = [msg] ∧
    (rsp_error msg = None →
       promises st3 !! p = Some (Fulfilled (rsp_result msg))) ∧
    (∀ error, rsp_error msg = Some error →
       promises st3 !! p = Some (Rejected (new_Error (err_message error)))) ∧
    messageRequests st3 !! n = None ∧
    ∀ (cs' : list Call) (msg' : RpcResponse),
      rsp_id msg' = Some n →
      let st4 := exec cs' st3 in
      onmessage msg' st4 = broadcast msg' st4 ∧
      messageRequests (snd (onmessage msg' st4)) !! n = None ∧
      completions p (trace (snd (onmessage msg' st4))) = [msg] ∧
      promises (snd (onmessage msg' st4)) !! p = promises st3 !! p.
Proof.
  intros Hreach Hrpc n Hcs Hid st2.
  destruct (reachable_inv st Hreach) as (Hok & _ & _).
  destruct (rpc_registers message st p st1 Hok Hrpc) as (Hok1 & Hn1).
  destruct (entry_kept_exec n (mkCache p p) cs st1 Hok1 Hn1 Hcs) as (Hok2 & Hn2).
  fold st2 in Hok2, Hn2.
  destruct (entry_pending _ Hok2 n _ Hn2) as (_ & Hpend & Hnone). simpl in *.
  split; [done|]. split; [done|]. split; [done|].
  destruct (onmessage_retires n (mkCache p p) msg st2 Hok2 Hn2 Hid)
    as (st3 & Hm & Hret & Hc3 & Hp3 & _). simpl in *.
  assert (table_ok st3) as Hok3.
  { pose proof (table_ok_onmessage msg st2 Hok2) as H. by rewrite Hm in H. }
  exists st3. split; [done|]. split; [done|].
  split; [|split; [|split]].
  - intros He. rewrite Hp3. unfold settled. by rewrite He.
  - intros error He. rewrite Hp3. unfold settled. by rewrite He.
  - apply (retired_gone _ _ _ Hret).
  - intros cs' msg' Hid'. set (st4 := exec cs' st3).
    destruct (retired_exec n p (cs' ++ [Message msg']) st3 Hok3 Hret)
      as (_ & Hret5 & Hc5 & Hp5).
    destruct (retired_exec n p cs' st3 Hok3 Hret) as (_ & Hret4 & _).
    fold st4 in Hret4.
    assert (exec (cs' ++ [Message msg']) st3 = snd (onmessage msg' st4)) as Hexec.
    { subst st4. clear. revert st3.
      induction cs' as [|c cs' IH]; intros st3; simpl; [done|]. apply IH. }
    rewrite Hexec in *.
    split; [|split; [|split]].
    + rewrite onmessage_eq.
      destruct (pending_entry msg' st4) as [[k c]|] eqn:E; [|done].
      apply pending_entry_Some in E as (Hk & _ & Hin).
      rewrite Hid' in Hk. injection Hk as <-.
      by rewrite (retired_gone _ _ _ Hret4) in Hin.
    + apply (retired_gone _ _ _ Hret5).
    + congruence.
    + done.
Qed.

Lemma response_completes_call_once_witness :
  let st := exec [NewObject (mkRequest None None "ping" None)] init in
  let st1 := snd (rpc 0%nat st) in
  let msg := mkResponse "2.0" (Some 1) (Some (JStr "pong")) None in
  let st2 := exec [Connect "ws://a"; Open] st1 in
  ∃ st3, onmessage msg st2 = (Ret tt, st3) ∧
    completions 0%nat (trace st3) = [msg] ∧
    promises st3 !! 0%nat = Some (Fulfilled (Some (JStr "pong"))) ∧
    onmessage msg st3 = broadcast msg st3.
Proof.
  intros st st1 msg st2.
  destruct (response_completes_call_once st 0%nat 0%nat st1
              [Connect "ws://a"; Open] msg)
    as (_ & _ & _ & st3 & Hm & Hc & Hf & _ & _ & Hlater).
  - subst st. cbn [exec].
    apply (reachable_step _ (NewObject _)); [|reflexivity].
    apply reachable_init.
  - reflexivity.
  - reflexivity.
  - reflexivity.
  - exists st3. split; [exact Hm|]. split; [exact Hc|].
    split; [exact (Hf eq_refl)|].
    exact (proj1 (Hlater [] msg eq_refl)).
Defined.

(** C4, as the code has it. A message with an error and the identifier of a
    pending entry rejects the promise of that entry with an [Error] made
    from the message text of the server's error alone; every other entry
    stays in the table, its promise pending, its wrapper not called. *)
Theorem correlated_error_rejects_call (st : State) (msg : RpcResponse)
    (n : Z) (c : PromiseCache) (error : RpcError) :
  reachable st →
  rsp_id msg = Some n →
  messageRequests st !! n = Some c →
  rsp_error msg = Some error →
  ∃ st' e,
    onmessage msg st = (Ret tt, st') ∧
    promises st' !! resolve c = Some (Rejected e) ∧
    e = new_Error (err_message error) ∧
    error_message e = err_message error ∧
    error_own e = [] ∧
    messageRequests st' !! n = None ∧
    (∀ n' c', n' ≠ n → messageRequests st !! n' = Some c' →
       messageRequests st' !! n' = Some c' ∧
       promises st' !! resolve c' = Some Pending ∧
       completions (resolve c') (trace st') = []).
Proof.
  intros Hreach Hid Hn He.
  destruct (reachable_inv st Hreach) as (Hok & _ & _).
  destruct (onmessage_retires n c msg st Hok Hn Hid)
    as (st' & Hm & Hret & _ & Hp & Hothers).
  exists st', (new_Error (err_message error)).
  split; [done|]. split.
  { rewrite Hp. unfold settled. by rewrite He. }
  split; [done|]. split; [done|]. split; [done|].
  split; [apply (retired_gone _ _ _ Hret) | done].
Qed.

Lemma correlated_error_rejects_call_witness :
  let st := exec [NewObject (mkRequest None None "bad" None); Rpc 0%nat] init in
  let msg := mkResponse "2.0" (Some 1) None (Some (mkError (-1) "boom" None)) in
  ∃ st', onmessage msg st = (Ret tt, st') ∧
    promises st' !! 0%nat = Some (Rejected (new_Error "boom")).
Proof.
  intros st msg.
  destruct (correlated_error_rejects_call st msg 1 (mkCache 0 0)
              (mkError (-1) "boom" None))
    as (st' & e & Hm & Hp & -> & _).
  - subst st. cbn [exec].
    apply (reachable_step _ (Rpc 0%nat)); [|reflexivity].
    apply (reachable_step _ (NewObject _)); [|reflexivity].
    apply reachable_init.
  - reflexivity.
  - reflexivity.
  - reflexivity.
  - exists st'. split; [exact Hm | exact Hp].
Defined.

(** C4, as stated, fails: the error that rejects the promise has the
    message of the server's error and none of its code and data. *)
Lemma rejection_drops_code_and_data :
  let st := exec [NewObject (mkRequest None None "bad" None); Rpc 0%nat] init in
  let error := mkError (-1) "boom" (Some (JStr "detail")) in
  let msg := mkResponse "2.0" (Some 1) None (Some error) in
  reachable st ∧
  messageRequests st !! 1 = Some (mkCache 0 0) ∧
  ∃ e, promises (snd (onmessage msg st)) !! 0%nat = Some (Rejected e) ∧
    error_message e = "boom"%string ∧
    own_property "code" (error_own e) = None ∧
    own_property "code" (error_own e) ≠ Some (JNum (err_code error)) ∧
    own_property "data" (error_own e) = None ∧
    own_property "data" (error_own e) ≠ err_data error.
Proof.
  intros st error msg. split; [|split; [reflexivity|]].
  - subst st. cbn [exec].
    apply (reachable_step _ (Rpc 0%nat)); [|reflexivity].
    apply (reachable_step _ (NewObject _)); [|reflexivity].
    apply reachable_init.
  - exists (new_Error "boom"). repeat split; done.
Qed.

(** ** Termination *)

(** The loop of the open handler ends within the fuel it is given, whether
    it returns or an iteration throws. *)
Lemma drain_terminates n : ∀ st,
  connected st = true → (length (queue st) ≤ n)%nat →
  fst (drain n st) ≠ OutOfFuel.
Proof.
  induction n as [|n IH]; intros st Hc Hlen.
  - destruct (queue st) as [|r rest] eqn:Hq; [|simpl in Hlen; lia].
    simpl. by rewrite Hq.
  - rewrite drain_S. destruct (queue st) as [|r rest] eqn:Hq; [done|].
    rewrite notify_eq. simpl. rewrite Hc.
    destruct (heap st !! r) as [o|]; [|done].
    destruct (websocket st) as [ws|]; [|done].
    apply IH; simpl; [done|]. simpl in Hlen. lia.
Qed.

Lemma step_terminates c st : fst (step c st) ≠ OutOfFuel.
Proof.
  destruct c; simpl.
  - by rewrite connect_eq.
  - rewrite notify_eq. destruct (heap st !! message); [|done]. simpl.
    by destruct (connected st); [destruct (websocket st)|].
  - unfold bind, ret. rewrite rpc_eq. simpl.
    destruct (heap st !! message); [|done]. simpl.
    by destruct (connected st); [destruct (websocket st)|].
  - unfold onopen, bind at 1 2, modify, gets; simpl.
    pose proof (drain_terminates (length (queue st)) (set_connected true st)
                  eq_refl (le_n _)) as Hd.
    unfold bind.
    by destruct (drain (length (queue st)) (set_connected true st)) as [[[]| |] ?].
  - done.
  - rewrite onmessage_eq. destruct (pending_entry msg st) as [[n c]|]; [done|].
    rewrite broadcast_eq. destruct (rsp_error msg); [done|].
    by destruct (rsp_result msg) as [[]|].
  - done.
  - done.
Qed.

(** * Further properties of the methods *)

(** ** Sessions *)

Lemma created_app t1 t2 : created (t1 ++ t2) = created t1 ++ created t2.
Proof.
  induction t1 as [|e t1 IH]; simpl; [done|].
  destruct e; simpl; by rewrite ?IH.
Qed.

Lemma frames_app t1 t2 : frames (t1 ++ t2) = frames t1 ++ frames t2.
Proof.
  induction t1 as [|e t1 IH]; simpl; [done|].
  destruct e; simpl; by rewrite ?IH.
Qed.

Lemma emitted_app t1 t2 : emitted (t1 ++ t2) = emitted t1 ++ emitted t2.
Proof.
  induction t1 as [|e t1 IH]; simpl; [done|].
  destruct e; simpl; by rewrite ?IH.
Qed.

Lemma same_session_trans st1 st2 st3 :
  same_session st1 st2 → same_session st2 st3 → same_session st1 st3.
Proof. intros (? & ? & ?) (? & ? & ?). repeat split; congruence. Qed.

Lemma notify_same_session message st : same_session st (snd (notify message st)).
Proof.
  rewrite notify_eq. destruct (heap st !! message); [|done]. simpl.
  destruct (connected st); [destruct (websocket st)|]; simpl;
    repeat split; simpl; try done.
  rewrite created_app. simpl. by rewrite app_nil_r.
Qed.

Lemma drain_same_session n : ∀ st, same_session st (snd (drain n st)).
Proof.
  induction n as [|n IH]; intros st.
  - simpl. by destruct (queue st).
  - rewrite drain_S. destruct (queue st) as [|r rest] eqn:Hq; [done|].
    pose proof (notify_same_session r (set_queue rest st)) as Hn.
    destruct (notify r (set_queue rest st)) as [[[]| |] st'] eqn:E;
      simpl in *; try exact Hn.
    eapply same_session_trans; [exact Hn | apply IH].
Qed.

Lemma step_same_session c st :
  (∀ url, c ≠ Connect url) → same_session st (after c st).
Proof.
  intros Hc. unfold after. destruct c; simpl.
  - by destruct (Hc url).
  - apply notify_same_session.
  - unfold bind, ret. rewrite rpc_eq. simpl.
    destruct (heap st !! message); [|done]. simpl.
    destruct (connected st); [destruct (websocket st)|]; simpl;
      repeat split; simpl; try done.
    rewrite created_app. simpl. by rewrite app_nil_r.
  - unfold onopen, bind at 1 2, modify, gets; simpl.
    pose proof (drain_same_session (length (queue st)) (set_connected true st))
      as Hd.
    unfold bind.
    destruct (drain (length (queue st)) (set_connected true st))
      as [[[]| |] st']; simpl in *; try exact Hd.
    destruct Hd as (? & ? & Hcr). repeat split; simpl; try done.
    rewrite created_app, Hcr. simpl. by rewrite app_nil_r.
  - run_monad. repeat split; simpl; try done.
    rewrite created_app. simpl. by rewrite app_nil_r.
  - rewrite onmessage_eq. destruct (pending_entry msg st) as [[n c]|].
    + simpl. destruct (promises st !! resolve c) as [[]|]; repeat split;
        simpl; try done; rewrite created_app; simpl; by rewrite app_nil_r.
    + rewrite broadcast_eq. destruct (rsp_error msg); [done|].
      destruct (rsp_result msg) as [[]|]; try done.
      repeat split; simpl; try done.
      rewrite created_app. simpl. by rewrite app_nil_r.
  - done.
  - done.
Qed.

Lemma step_connected c st :
  (∀ url, c ≠ Connect url) → c ≠ Open → c ≠ Close →
  connected (after c st) = connected st.
Proof.
  intros Hc Ho Hcl. unfold after. destruct c; simpl; try done.
  - by destruct (Hc url).
  - rewrite notify_eq. destruct (heap st !! message); [|done]. simpl.
    by destruct (connected st) eqn:Hcn; [destruct (websocket st)|]; simpl.
  - unfold bind, ret. rewrite rpc_eq. simpl.
    destruct (heap st !! message); [|done]. simpl.
    by destruct (connected st) eqn:Hcn; [destruct (websocket st)|]; simpl.
  - by destruct (onmessage_queue msg st) as (_ & -> & _).
Qed.

Lemma step_socket_inv c st :
  refs_ok st → socket_inv st → enabled c st = true → socket_inv (after c st).
Proof.
  intros Hrefs (Hc & Hw & Hcr) Hen.
  assert ((∃ url, c = Connect url) ∨ ∀ url, c ≠ Connect url) as [[url ->]|Hnc'].
  { destruct c; try (by right); left; by eexists. }
  { unfold after. simpl. rewrite connect_eq. unfold socket_inv. simpl.
    split; [by eexists|]. split.
    - intros ws [= <-]. lia.
    - intros ws. destruct (websocket st); simpl;
        rewrite !created_app; simpl; rewrite ?app_nil_r;
        intros [Hin|[<-|[]]]%in_app_or; try lia; apply Hcr in Hin; lia. }
  destruct (step_same_session c st Hnc') as (Hw' & Hs' & Hcr').
  unfold socket_inv. rewrite Hw', Hs', Hcr'. split; [|done].
  destruct c; try (rewrite step_connected; done).
  - simpl in Hen. intros _. by destruct (websocket st).
  - unfold after. simpl. run_monad. done.
Qed.

Lemma reachable_socket_inv st : reachable st → socket_inv st.
Proof.
  induction 1 as [|st c Hreach IH Hen].
  - split; [done|]. split; [done|]. simpl. by intros ws [].
  - destruct (reachable_inv st Hreach) as (_ & Hrefs & _).
    by apply step_socket_inv.
Qed.

(** ** Calls with and without an object *)

(** X2. Called on no object, [notify] throws a [TypeError] and changes
    nothing. [rpc] throws it too, but only after it has advanced the
    counter and registered an entry with a new pending promise; that entry
    stays, and nothing is queued or sent. *)
Theorem calls_without_object_throw (st : State) (message : Ref) :
  heap st !! message = None →
  notify message st = (Throw ThrowTypeError, st) ∧
  let st' := snd (rpc message st) in
  let p := length (promises st) in
  fst (rpc message st) = Throw ThrowTypeError ∧
  messageId st' = messageId st + 1 ∧
  messageRequests st' !! (messageId st + 1) = Some (mkCache p p) ∧
  promises st' !! p = Some Pending ∧
  queue st' = queue st ∧ trace st' = trace st ∧ heap st' = heap st ∧
  connected st' = connected st.
Proof.
  intros Ho. rewrite notify_eq, rpc_eq, Ho. simpl.
  repeat split; try done.
  - apply lookup_insert_eq.
  - by apply list_lookup_middle.
Qed.

Lemma calls_without_object_throw_witness :
  notify 3%nat init = (Throw ThrowTypeError, init) ∧
  fst (rpc 3%nat init) = Throw ThrowTypeError ∧
  messageId (snd (rpc 3%nat init)) = 1.
Proof.
  destruct (calls_without_object_throw init 3%nat eq_refl)
    as (Hn & Hr & Hi & _).
  split; [exact Hn|]. split; [exact Hr | exact Hi].
Defined.

(** X3. After any run the counter has grown by the number of calls of
    [rpc] in it, those that threw included: from the constructor on, the
    k-th call of [rpc] is given identifier k. *)
Theorem counter_counts_rpc_calls (cs : list Call) (st : State) :
  messageId (exec cs st) = messageId st + Z.of_nat (rpc_calls cs) ∧
  (∀ message,
     messageId (snd (rpc message (exec cs init))) = Z.of_nat (S (rpc_calls cs))).
Proof.
  assert (∀ cs st, messageId (exec cs st) = messageId st + Z.of_nat (rpc_calls cs))
    as Hrun.
  { clear. induction cs as [|c cs IH]; intros st; [simpl; lia|].
    cbn [exec]. rewrite IH.
    destruct c;
      try (match goal with
           | |- messageId (after ?c _) + _ = _ =>
               destruct (step_same_table c st) as (Heq & _);
               [intros ?; discriminate | intros ?; discriminate |
                rewrite Heq; simpl; lia]
           end).
    - rewrite step_rpc. destruct (rpc_table message st) as (-> & _).
      cbn [rpc_calls]. lia.
    - unfold after. simpl. rewrite onmessage_messageId. lia. }
  split; [apply Hrun|].
  intros message. destruct (rpc_table message (exec cs init)) as (-> & _).
  rewrite Hrun. simpl messageId. lia.
Qed.

(** ** Promises over whole runs *)

Lemma promise_outcome_step c st :
  table_ok st →
  (∀ p, (completions p (trace st) = [] ∧
         ∀ s, promises st !! p = Some s → s = Pending) ∨
        (∃ msg, completions p (trace st) = [msg] ∧
                promises st !! p = Some (settled msg))) →
  ∀ p, (completions p (trace (after c st)) = [] ∧
        ∀ s, promises (after c st) !! p = Some s → s = Pending) ∨
       (∃ msg, completions p (trace (after c st)) = [msg] ∧
               promises (after c st) !! p = Some (settled msg)).
Proof.
  intros Hok Hall p.
  assert (same_table st (after c st) ∨ (∃ r, c = Rpc r) ∨ ∃ msg, c = Message msg)
    as [(_ & _ & Hp & Hc)|[[r ->]|[msg ->]]].
  { destruct c; try (left; apply step_same_table; intros ?; discriminate).
    - right. left. by eexists.
    - right. right. by eexists. }
  - rewrite Hp, Hc. apply Hall.
  - rewrite step_rpc. destruct (rpc_table r st) as (_ & _ & Hp & Hc).
    rewrite Hp, Hc. destruct (Hall p) as [[Hnone Hpend]|(msg & Hone & Hs)].
    + left. split; [done|]. intros s [Hs|[_ Hs]]%lookup_app_Some.
      * by apply Hpend.
      * destruct (p - length (promises st))%nat; simpl in Hs; [|done].
        by injection Hs as <-.
    + right. exists msg. split; [done|]. by apply lookup_app_l_Some.
  - unfold after. simpl. rewrite onmessage_eq.
    destruct (pending_entry msg st) as [[n c]|] eqn:E.
    + apply pending_entry_Some in E as (_ & _ & Hn).
      destruct (entry_pending _ Hok n c Hn) as (_ & Hpend & Hnone).
      rewrite Hpend. simpl. destruct (decide (p = resolve c)) as [->|Hne].
      * right. exists msg. rewrite completions_app, Hnone. simpl.
        rewrite decide_True by done. split; [done|].
        apply list_lookup_insert_eq. by eapply lookup_lt_Some.
      * rewrite completions_snoc_ne by done.
        rewrite list_lookup_insert_ne by done. apply Hall.
    + destruct (broadcast_same_table msg st) as (_ & _ & Hp & Hc).
      rewrite Hp, Hc. apply Hall.
Qed.

(** X4. In a reachable state every promise is in one of two conditions:
    its wrapper was never called and it is pending, or its wrapper was
    called exactly once and the promise holds what that one response made
    of it: rejected with the message of its error, or fulfilled with its
    result. So no wrapper is ever called twice, and a promise is settled
    by a response and by nothing else. *)
Theorem promise_outcome (st : State) (p : Promise) :
  reachable st →
  (length (completions p (trace st)) ≤ 1)%nat ∧
  ((completions p (trace st) = [] ∧
    ∀ s, promises st !! p = Some s → s = Pending) ∨
   (∃ msg, completions p (trace st) = [msg] ∧
      promises st !! p = Some (settled msg) ∧ settled msg ≠ Pending)).
Proof.
  intros Hreach.
  assert ((completions p (trace st) = [] ∧
           ∀ s, promises st !! p = Some s → s = Pending) ∨
          (∃ msg, completions p (trace st) = [msg] ∧
                  promises st !! p = Some (settled msg))) as H.
  { revert p. induction Hreach as [|st c Hreach IH Hen]; intros p.
    - left. split; [done|]. intros s Hs. simpl in Hs.
      by rewrite lookup_nil in Hs.
    - apply promise_outcome_step; [|done].
      by destruct (reachable_inv st Hreach) as (? & _). }
  destruct H as [[Hnone Hpend]|(msg & Hone & Hs)].
  - rewrite Hnone. split; [simpl; lia|]. by left.
  - rewrite Hone. split; [simpl; lia|]. right. exists msg.
    split; [done|]. split; [done|]. unfold settled. by destruct (rsp_error msg).
Qed.

Lemma promise_outcome_witness :
  let st := exec [NewObject (mkRequest None None "bad" None); Rpc 0%nat;
                  Connect "ws://a";
                  Message (mkResponse "2.0" (Some 1) None
                             (Some (mkError (-1) "boom" None)))] init in
  (length (completions 0%nat (trace st)) ≤ 1)%nat ∧
  promises st !! 0%nat = Some (Rejected (new_Error "boom")).
Proof.
  intros st. split; [|reflexivity].
  refine (proj1 (promise_outcome st 0%nat _)).
  subst st. cbn [exec].
  apply (reachable_step _ (Message _)); [|reflexivity].
  apply (reachable_step _ (Connect "ws://a")); [|reflexivity].
  apply (reachable_step _ (Rpc 0%nat)); [|reflexivity].
  apply (reachable_step _ (NewObject _)); [|reflexivity].
  apply reachable_init.
Defined.

(** ** Frames *)

Lemma frames_sends ws (fs : list RpcRequest) :
  frames (WsSend ws <$> fs) = (λ f, (ws, f)) <$> fs.
Proof.
  induction fs as [|f fs IH]; [done|].
  rewrite !fmap_cons. cbn [frames]. by rewrite IH.
Qed.

(** ** A request made before the session is open *)

(** X6. A call of [rpc] made in a reachable state while [connected] is not
    set sends nothing. When the open handler then runs, the request is the
    last frame it sends, after those that were waiting, and it carries the
    version tag and the identifier of the call; a response with that
    identifier and no error then fulfils the promise the call returned
    with the result of the response. *)
Theorem rpc_before_open_round_trip (st : State) (message : Ref)
    (o : RpcRequest) (ws : WebSocket) (v : jsval) :
  reachable st →
  connected st = false →
  websocket st = Some ws →
  heap st !! message = Some o →
  let n := messageId st + 1 in
  let p := length (promises st) in
  ∃ st1 st2 st3 earlier,
    rpc message st = (Ret p, st1) ∧
    frames (trace st1) = frames (trace st) ∧
    onopen st1 = (Ret tt, st2) ∧
    length earlier = length (queue st) ∧
    frames (trace st2) =
      frames (trace st) ++ earlier ++ [(ws, stamp (with_id n o))] ∧
    onmessage (mkResponse "2.0" (Some n) v None) st2 = (Ret tt, st3) ∧
    promises st3 !! p = Some (Fulfilled v).
Proof.
  intros Hreach Hc Hw Ho n p.
  assert (message < length (heap st))%nat as Hlt by by eapply lookup_lt_Some.
  pose (st1 := snd (rpc message st)).
  assert (rpc message st = (Ret p, st1)) as Hrpc.
  { subst st1. rewrite rpc_eq, Ho, Hc. done. }
  assert (reachable st1) as Hreach1.
  { subst st1. rewrite <- step_rpc. by apply reachable_step. }
  assert (queue st1 = queue st ++ [message] ∧ trace st1 = trace st ∧
          websocket st1 = Some ws ∧
          heap st1 !! message = Some (stamp (with_id n o))) as (Hq1 & Ht1 & Hw1 & Hh1).
  { subst st1. rewrite rpc_eq, Ho, Hc. simpl. repeat split; try done.
    by apply list_lookup_insert_eq. }
  destruct (reachable_inv st1 Hreach1) as (Hok1 & Hrefs1 & _).
  destruct (frames_exist _ _ Hrefs1) as [fs Hfs].
  pose proof Hfs as Hfs'. rewrite Hq1 in Hfs'.
  apply Forall2_app_inv_l in Hfs' as (fq & fm & Hfq & Hfm & ->).
  apply Forall2_cons_inv_l in Hfm as (f & fm' & Hf & Hnil & ->).
  apply Forall2_nil_inv_l in Hnil as ->.
  unfold frame_of in Hf. rewrite Hh1 in Hf. simpl in Hf. injection Hf as <-.
  destruct (onopen_connected st1 ws _ Hw1 Hfs)
    as (st2 & Hopen & _ & _ & _ & Ht2 & _).
  destruct (rpc_registers message st p st1) as (_ & Hn1); [|done|].
  { by destruct (reachable_inv st Hreach). }
  assert (messageId st1 = n) as Hid1.
  { subst st1. by destruct (rpc_table message st) as (-> & _). }
  rewrite Hid1 in Hn1.
  assert (table_ok st2 ∧ messageRequests st2 !! n = Some (mkCache p p))
    as (Hok2 & Hn2).
  { pose proof (table_ok_step Open st1 Hok1) as Hok2.
    pose proof (onopen_same_table st1) as (_ & Htab & _).
    unfold after in Hok2. simpl in Hok2. rewrite Hopen in *. simpl in *.
    split; [done|]. by rewrite Htab. }
  destruct (onmessage_retires n (mkCache p p)
              (mkResponse "2.0" (Some n) v None) st2 Hok2 Hn2 eq_refl)
    as (st3 & Hm & _ & _ & Hp3 & _).
  exists st1, st2, st3, ((λ f, (ws, f)) <$> fq).
  split; [done|]. split; [by rewrite Ht1|]. split; [done|]. split.
  { rewrite length_fmap. symmetry. by apply Forall2_length in Hfq. }
  split; [|done].
  rewrite Ht2, Ht1, !frames_app, frames_sends, fmap_app. simpl.
  by rewrite app_nil_r.
Qed.

Lemma rpc_before_open_round_trip_witness :
  let ping := mkRequest None None "ping" None in
  let st := exec [NewObject ping; Connect "ws://a"] init in
  ∃ st1 st2 st3,
    rpc 0%nat st = (Ret 0%nat, st1) ∧ onopen st1 = (Ret tt, st2) ∧
    frames (trace st2) = [(0%nat, stamp (with_id 1 ping))] ∧
    onmessage (mkResponse "2.0" (Some 1) (Some (JStr "pong")) None) st2
      = (Ret tt, st3) ∧
    promises st3 !! 0%nat = Some (Fulfilled (Some (JStr "pong"))).
Proof.
  intros ping st.
  destruct (rpc_before_open_round_trip st 0%nat ping 0%nat (Some (JStr "pong")))
    as (st1 & st2 & st3 & earlier & Hr & _ & Ho & Hl & Hf & Hm & Hp).
  - subst st. cbn [exec].
    apply (reachable_step _ (Connect "ws://a")); [|reflexivity].
    apply (reachable_step _ (NewObject _)); [|reflexivity].
    apply reachable_init.
  - reflexivity.
  - reflexivity.
  - reflexivity.
  - exists st1, st2, st3. repeat split; try done.
    destruct earlier; [exact Hf | discriminate Hl].
Defined.

(** ** Objects are read when they are sent *)

(** X7. What is sent for a queued message is what its object holds when the
    open handler runs, not what it held when [notify] or [rpc] was called.
    Two calls of [rpc] on one object while [connected] is not set make two
    entries with two identifiers, and on open two frames are sent that both
    carry the second identifier; a message changed by its caller after
    [notify] is sent as changed. *)
Theorem queued_objects_are_read_on_open (st : State) (message : Ref)
    (o o' : RpcRequest) (ws : WebSocket) :
  connected st = false →
  websocket st = Some ws →
  queue st = [] →
  heap st !! message = Some o →
  let n := messageId st in
  (∃ p1 p2 st2 st3,
     rpc message st = (Ret p1, snd (rpc message st)) ∧
     rpc message (snd (rpc message st)) = (Ret p2, st2) ∧
     messageRequests st2 !! (n + 1) = Some (mkCache p1 p1) ∧
     messageRequests st2 !! (n + 2) = Some (mkCache p2 p2) ∧
     p1 ≠ p2 ∧
     onopen st2 = (Ret tt, st3) ∧
     frames (trace st3) =
       frames (trace st) ++ [(ws, stamp (with_id (n + 2) o));
                             (ws, stamp (with_id (n + 2) o))]) ∧
  (∃ st3,
     onopen (after (Mutate message o') (after (Notify message) st))
       = (Ret tt, st3) ∧
     frames (trace st3) = frames (trace st) ++ [(ws, stamp o')]).
Proof.
  intros Hc Hw Hq Ho n.
  assert (message < length (heap st))%nat as Hlt by by eapply lookup_lt_Some.
  split.
  - pose (st1 := snd (rpc message st)).
    assert (st1 = set_queue [message]
              (set_heap (<[message := stamp (with_id (n + 1) o)]> (heap st))
                 (set_messageRequests
                    (<[n + 1 := mkCache (length (promises st)) (length (promises st))]>
                       (messageRequests st))
                    (set_promises (promises st ++ [Pending])
                       (set_messageId (n + 1) st))))) as Hst1.
    { subst st1. rewrite rpc_eq, Ho, Hc, Hq. done. }
    assert (heap st1 !! message = Some (stamp (with_id (n + 1) o))) as Ho1.
    { rewrite Hst1. simpl. by apply list_lookup_insert_eq. }
    pose (st2 := snd (rpc message st1)).
    assert (rpc message st1 = (Ret (S (length (promises st))), st2) ∧
            queue st2 = [message; message] ∧ trace st2 = trace st ∧
            websocket st2 = Some ws ∧
            heap st2 !! message = Some (stamp (with_id (n + 2) o)) ∧
            messageRequests st2 =
              <[n + 2 := mkCache (S (length (promises st))) (S (length (promises st)))]>
                (<[n + 1 := mkCache (length (promises st)) (length (promises st))]>
                   (messageRequests st)))
      as (Hrpc2 & Hq2 & Ht2 & Hw2 & Ho2 & Htab2).
    { subst st2. rewrite rpc_eq, Ho1. rewrite Hst1. simpl.
      rewrite Hc, length_app, Nat.add_1_r. simpl.
      replace (n + 1 + 1) with (n + 2) by lia.
      repeat split; try done.
      rewrite list_lookup_insert_eq; [done|]. by rewrite length_insert. }
    destruct (onopen_connected st2 ws
                [stamp (with_id (n + 2) o); stamp (with_id (n + 2) o)] Hw2)
      as (st3 & Hopen & _ & _ & _ & Ht3 & _).
    { rewrite Hq2. repeat constructor; unfold frame_of; by rewrite Ho2. }
    exists (length (promises st)), (S (length (promises st))), st2, st3.
    split. { subst st1. rewrite rpc_eq, Ho, Hc. done. }
    split; [done|]. split.
    { rewrite Htab2, lookup_insert_ne by lia. apply lookup_insert_eq. }
    split. { rewrite Htab2. apply lookup_insert_eq. }
    split; [lia|]. split; [done|].
    rewrite Ht3, Ht2, !frames_app, frames_sends. simpl. by rewrite ?app_nil_r.
  - unfold after. simpl. rewrite notify_eq, Ho, Hc. simpl. unfold modify. simpl.
    rewrite list_insert_insert_eq, Hq.
    match goal with |- ∃ st3, onopen ?s = _ ∧ _ =>
      destruct (onopen_connected s ws [stamp o'] Hw)
        as (st3 & Hopen & _ & _ & _ & Ht3 & _)
    end.
    { simpl. repeat constructor. unfold frame_of.
      by rewrite list_lookup_insert_eq. }
    exists st3. split; [done|].
    rewrite Ht3, !frames_app, frames_sends. simpl. by rewrite ?app_nil_r.
Qed.

Lemma queued_objects_are_read_on_open_witness :
  let ping := mkRequest None None "ping" None in
  let pong := mkRequest None None "pong" None in
  let st := exec [NewObject ping; Connect "ws://a"] init in
  frames (trace (after Open (after (Rpc 0%nat) (after (Rpc 0%nat) st)))) =
    [(0%nat, stamp (with_id 2 ping)); (0%nat, stamp (with_id 2 ping))] ∧
  frames (trace (after Open (after (Mutate 0%nat pong) (after (Notify 0%nat) st)))) =
    [(0%nat, stamp pong)].
Proof.
  intros ping pong st.
  destruct (queued_objects_are_read_on_open st 0%nat ping pong 0%nat
              eq_refl eq_refl eq_refl eq_refl)
    as ((p1 & p2 & st2 & st3 & _ & Hr2 & _ & _ & _ & Ho & Hf) & (st3' & Ho' & Hf')).
  split.
  - unfold after at 1. simpl step. rewrite !step_rpc, Hr2. simpl snd.
    rewrite Ho. exact Hf.
  - unfold after at 1. simpl step. rewrite Ho'. exact Hf'.
Defined.

(** ** A replaced session *)

Lemma notify_frames_target message st :
  ∃ added, frames (trace (snd (notify message st))) = frames (trace st) ++ added ∧
    Forall (λ f, websocket st = Some f.1) added.
Proof.
  rewrite notify_eq. destruct (heap st !! message);
    [|exists []; by rewrite app_nil_r].
  simpl. destruct (connected st); [destruct (websocket st) as [ws|]|]; simpl;
    try (exists []; by rewrite app_nil_r).
  exists [(ws, stamp r)]. rewrite frames_app. simpl.
  split; [done|]. by repeat constructor.
Qed.

Lemma drain_frames_target n : ∀ st,
  ∃ added, frames (trace (snd (drain n st))) = frames (trace st) ++ added ∧
    Forall (λ f, websocket st = Some f.1) added.
Proof.
  induction n as [|n IH]; intros st.
  - exists []. rewrite app_nil_r. simpl. by destruct (queue st).
  - rewrite drain_S. destruct (queue st) as [|r rest] eqn:Hq;
      [exists []; by rewrite app_nil_r|].
    destruct (notify_frames_target r (set_queue rest st)) as (a1 & H1 & F1).
    pose proof (notify_same_session r (set_queue rest st)) as (Hw & _).
    destruct (notify r (set_queue rest st)) as [[[]| |] st'] eqn:E;
      simpl in *; try (by exists a1).
    destruct (IH st') as (a2 & H2 & F2).
    exists (a1 ++ a2). rewrite H2, H1, app_assoc. split; [done|].
    apply Forall_app. split; [done|]. by rewrite <- Hw.
Qed.

(** Whatever a call sends, it sends on the session of the moment. *)
Lemma step_frames_target c st :
  ∃ added, frames (trace (after c st)) = frames (trace st) ++ added ∧
    Forall (λ f, websocket st = Some f.1) added.
Proof.
  unfold after. destruct c; simpl.
  - exists []. rewrite connect_eq, app_nil_r. simpl. split; [|done].
    destruct (websocket st); simpl; rewrite !frames_app; simpl;
      by rewrite ?app_nil_r.
  - apply notify_frames_target.
  - unfold bind, ret. rewrite rpc_eq. simpl.
    destruct (heap st !! message); [|exists []; by rewrite app_nil_r].
    simpl. destruct (connected st); [destruct (websocket st) as [ws|]|]; simpl;
      try (exists []; by rewrite app_nil_r).
    eexists [_]. rewrite frames_app. simpl.
    split; [done|]. by repeat constructor.
  - unfold onopen, bind at 1 2, modify, gets; simpl.
    destruct (drain_frames_target (length (queue st)) (set_connected true st))
      as (a & Ha & Fa).
    unfold bind.
    destruct (drain (length (queue st)) (set_connected true st))
      as [[[]| |] st']; simpl in *; try (by exists a).
    exists a. rewrite frames_app, Ha. simpl. by rewrite app_nil_r.
  - exists []. run_monad. rewrite frames_app. simpl. by rewrite !app_nil_r.
  - exists []. rewrite app_nil_r. split; [|done]. rewrite onmessage_eq.
    destruct (pending_entry msg st) as [[n c]|].
    + simpl. destruct (promises st !! resolve c) as [[]|]; simpl;
        rewrite frames_app; simpl; by rewrite app_nil_r.
    + rewrite broadcast_eq. destruct (rsp_error msg); [done|].
      destruct (rsp_result msg) as [[]|]; simpl; try done.
      rewrite frames_app. simpl. by rewrite app_nil_r.
  - exists []. by rewrite app_nil_r.
  - exists []. by rewrite app_nil_r.
Qed.

Lemma frames_after_replace (old : WebSocket) cs : ∀ st,
  (old < sockets st)%nat →
  (∀ w, websocket st = Some w → (old < w)%nat) →
  ∃ later, frames (trace (exec cs st)) = frames (trace st) ++ later ∧
    Forall (λ f, (old < f.1)%nat) later.
Proof.
  induction cs as [|c cs IH]; intros st Hs Hw.
  - exists []. by rewrite app_nil_r.
  - cbn [exec]. destruct (step_frames_target c st) as (a & Ha & Fa).
    destruct (IH (after c st)) as (l & Hl & Fl).
    + assert ((∃ url, c = Connect url) ∨ ∀ url, c ≠ Connect url) as [[url ->]|Hnc].
      { destruct c; try (by right); left; by eexists. }
      * unfold after. simpl. rewrite connect_eq. simpl. lia.
      * destruct (step_same_session c st Hnc) as (_ & -> & _). done.
    + assert ((∃ url, c = Connect url) ∨ ∀ url, c ≠ Connect url) as [[url ->]|Hnc].
      { destruct c; try (by right); left; by eexists. }
      * unfold after. simpl. rewrite connect_eq. simpl. intros w [= <-]. done.
      * destruct (step_same_session c st Hnc) as (-> & _). done.
    + exists (a ++ l). rewrite Hl, Ha, app_assoc. split; [done|].
      apply Forall_app. split; [|done].
      eapply Forall_impl; [exact Fa|]. simpl. intros f Hf. by apply Hw.
Qed.

(** X8. Once [connect] has replaced a session, nothing is sent on the old
    one again: [connect] closes it, and every frame sent in any run that
    follows goes to a socket created later. *)
Theorem replaced_session_gets_no_frames (st : State) (old : WebSocket)
    (url : string) (cs : list Call) :
  reachable st →
  websocket st = Some old →
  let st1 := after (Connect url) st in
  trace st1 = trace st ++ [WsClose old; WsNew (sockets st) url] ∧
  websocket st1 ≠ Some old ∧
  ∃ later, frames (trace (exec cs st1)) = frames (trace st) ++ later ∧
    Forall (λ f, f.1 ≠ old) later.
Proof.
  intros Hreach Hw st1.
  destruct (reachable_socket_inv st Hreach) as (_ & Hlt & _).
  specialize (Hlt old Hw).
  assert (st1 = set_websocket (Some (sockets st))
                  (log (WsNew (sockets st) url)
                     (set_sockets (S (sockets st)) (log (WsClose old) st))))
    as Hst1.
  { subst st1. unfold after. simpl. rewrite connect_eq, Hw. done. }
  split; [rewrite Hst1; simpl; by rewrite <- app_assoc|].
  split; [rewrite Hst1; simpl; intros [= ?]; lia|].
  destruct (frames_after_replace old cs st1) as (later & Hl & Fl).
  - rewrite Hst1. simpl. lia.
  - rewrite Hst1. simpl. intros w [= <-]. done.
  - exists later. split.
    + rewrite Hl, Hst1. simpl. rewrite !frames_app. simpl.
      by rewrite !app_nil_r.
    + eapply Forall_impl; [exact Fl|]. simpl. intros f Hf. lia.
Qed.

Lemma replaced_session_gets_no_frames_witness :
  let ping := mkRequest None None "ping" None in
  let st := exec [NewObject ping; Connect "ws://a"; Open] init in
  let cs := [Notify 0%nat; Close; Notify 0%nat; Open] in
  ∃ later,
    frames (trace (exec cs (after (Connect "ws://b") st))) =
      frames (trace st) ++ later ∧
    Forall (λ f, f.1 ≠ 0%nat) later.
Proof.
  intros ping st cs.
  refine (proj2 (proj2 (replaced_session_gets_no_frames st 0%nat "ws://b" cs _ eq_refl))).
  subst st. cbn [exec].
  apply (reachable_step _ Open); [|reflexivity].
  apply (reachable_step _ (Connect "ws://a")); [|reflexivity].
  apply (reachable_step _ (NewObject _)); [|reflexivity].
  apply reachable_init.
Defined.

(** ** Counting the calls of wrappers *)

Lemma completed_app t1 t2 : completed (t1 ++ t2) = (completed t1 + completed t2)%nat.
Proof.
  induction t1 as [|e t1 IH]; simpl; [done|].
  destruct e; simpl; by rewrite ?IH.
Qed.

(** ** A message is a response or a broadcast, never both *)

(** X10. In a reachable state a message with the identifier of a pending
    entry is consumed by that entry: the handler returns, even when the
    message carries an error, and raises no signal, even when its result is
    an array; one wrapper is called. A message with no such identifier
    calls no wrapper and leaves the table and the promises as they were. *)
Theorem message_is_response_or_broadcast (st : State) (msg : RpcResponse) :
  reachable st →
  let st' := snd (onmessage msg st) in
  (matches_pending msg st →
     fst (onmessage msg st) = Ret tt ∧
     emitted (trace st') = emitted (trace st) ∧
     completed (trace st') = S (completed (trace st)) ∧
     size (messageRequests st') = pred (size (messageRequests st))) ∧
  (¬ matches_pending msg st →
     completed (trace st') = completed (trace st) ∧
     messageRequests st' = messageRequests st ∧
     promises st' = promises st).
Proof.
  intros Hreach. destruct (reachable_inv st Hreach) as (Hok & _ & _).
  simpl. split.
  - intros (n & c & Hid & Hn).
    assert (pending_entry msg st = Some (n, c)) as E.
    { apply pending_entry_Some. split; [done|]. split; [|done].
      apply (keys_assigned _ Hok) in Hn. lia. }
    rewrite onmessage_eq, E.
    destruct (entry_pending _ Hok n c Hn) as (_ & -> & _). simpl.
    rewrite emitted_app, completed_app. simpl.
    rewrite app_nil_r, map_size_delete_Some by done.
    repeat split; try done. lia.
  - intros Hno. rewrite onmessage_eq, pending_entry_None by done.
    destruct (broadcast_same_table msg st) as (_ & Ht & Hp & _).
    split; [|done]. rewrite broadcast_eq.
    destruct (rsp_error msg); [done|].
    destruct (rsp_result msg) as [[]|]; simpl; try done.
    rewrite completed_app. simpl. lia.
Qed.

Lemma message_is_response_or_broadcast_witness :
  let ping := mkRequest None None "ping" None in
  let st := exec [NewObject ping; Rpc 0%nat; Connect "ws://a"] init in
  let msg := mkResponse "2.0" (Some 1)
               (Some (JArr [JStr "priceUpdate"; JNum 1])) None in
  fst (onmessage msg st) = Ret tt ∧
  emitted (trace (snd (onmessage msg st))) = emitted (trace st).
Proof.
  intros ping st msg.
  assert (reachable st) as Hreach.
  { subst st. cbn [exec].
    apply (reachable_step _ (Connect "ws://a")); [|reflexivity].
    apply (reachable_step _ (Rpc 0%nat)); [|reflexivity].
    apply (reachable_step _ (NewObject _)); [|reflexivity].
    apply reachable_init. }
  destruct (proj1 (message_is_response_or_broadcast st msg Hreach))
    as (Hr & He & _).
  - exists 1, (mkCache 0 0). split; reflexivity.
  - split; [exact Hr | exact He].
Defined.

(** ** connect and the connected flag *)









(** ** The session held *)

(** X1. In a reachable state [this.websocket] is the socket created last,
    so it is undefined exactly as long as [connect] was never called; and
    [connected] is set only when there is one, so the send branch of
    [notify] always has a session to call [send] on. *)
Theorem session_is_latest_socket (st : State) :
  reachable st →
  websocket st = last (created (trace st)) ∧
  (websocket st = None ↔ created (trace st) = []) ∧
  (connected st = true → ∃ ws, websocket st = Some ws).
Proof.
  intros Hreach.
  assert (websocket st = last (created (trace st))) as Hlast.
  { induction Hreach as [|st c Hreach IH Hen]; [done|].
    assert ((∃ url, c = Connect url) ∨ ∀ url, c ≠ Connect url) as [[url ->]|Hnc].
    { destruct c; try (by right); left; by eexists. }
    - unfold after. simpl. rewrite connect_eq. simpl.
      destruct (websocket st); simpl; rewrite !created_app; simpl;
        rewrite ?app_nil_r; by rewrite last_snoc.
    - destruct (step_same_session c st Hnc) as (-> & _ & ->). done. }
  split; [done|]. split.
  - rewrite Hlast. split.
    + apply last_None.
    + by intros ->.
  - intros Hc. destruct (reachable_socket_inv st Hreach) as (Hs & _).
    exact (Hs Hc).
Qed.

Lemma session_is_latest_socket_witness :
  let st := exec [Connect "ws://a"; Open; Connect "ws://b"] init in
  websocket st = Some 1%nat ∧ created (trace st) = [0; 1]%nat.
Proof.
  intros st. split; [|reflexivity].
  refine (eq_trans (proj1 (session_is_latest_socket st _)) eq_refl).
  subst st. cbn [exec].
  apply (reachable_step _ (Connect "ws://b")); [|reflexivity].
  apply (reachable_step _ Open); [|reflexivity].
  apply (reachable_step _ (Connect "ws://a")); [|reflexivity].
  apply reachable_init.
Defined.

(** ** Accounting for identifiers *)

(** Identifier [n] belongs to the promise made by the same call of [rpc]:
    from the constructor on, the counter and the number of promises grow
    together. Its entry is there with that promise pending and its wrapper
    not called, or it is not there and the wrapper was called once, with a
    message that carried [n]. *)
Lemma identifier_status_step c st :
  table_ok st →
  Z.of_nat (length (promises st)) = messageId st →
  (∀ n k, messageRequests st !! n = Some k → resolve k = Z.to_nat (n - 1)) →
  (∀ n, 0 < n ≤ messageId st → messageRequests st !! n = None →
     ∃ msg, rsp_id msg = Some n ∧
       completions (Z.to_nat (n - 1)) (trace st) = [msg] ∧
       promises st !! Z.to_nat (n - 1) = Some (settled msg)) →
  Z.of_nat (length (promises (after c st))) = messageId (after c st) ∧
  (∀ n k, messageRequests (after c st) !! n = Some k →
     resolve k = Z.to_nat (n - 1)) ∧
  (∀ n, 0 < n ≤ messageId (after c st) →
     messageRequests (after c st) !! n = None →
     ∃ msg, rsp_id msg = Some n ∧
       completions (Z.to_nat (n - 1)) (trace (after c st)) = [msg] ∧
       promises (after c st) !! Z.to_nat (n - 1) = Some (settled msg)).
Proof.
  intros Hok Hlen Hown Hgone.
  assert (same_table st (after c st) ∨ (∃ r, c = Rpc r) ∨ ∃ msg, c = Message msg)
    as [(Hi & Ht & Hp & Hc)|[[r ->]|[msg ->]]].
  { destruct c; try (left; apply step_same_table; intros ?; discriminate).
    - right. left. by eexists.
    - right. right. by eexists. }
  - rewrite Hi, Ht, Hp. split; [done|]. split; [done|].
    intros n Hn Hnone. destruct (Hgone n Hn Hnone) as (msg & ? & ? & ?).
    exists msg. by rewrite Hc.
  - rewrite step_rpc. destruct (rpc_table r st) as (Hi & Ht & Hp & Hc).
    rewrite Hi, Ht, Hp. split; [rewrite length_app; simpl; lia|]. split.
    + intros n k. rewrite lookup_insert. case_decide as E.
      * intros [= <-]. simpl. subst n. lia.
      * apply Hown.
    + intros n Hn. rewrite lookup_insert. case_decide as E; [done|].
      intros Hnone. destruct (Hgone n ltac:(lia) Hnone) as (msg & ? & ? & ?).
      exists msg. rewrite Hc. split; [done|]. split; [done|].
      by apply lookup_app_l_Some.
  - unfold after. simpl. rewrite onmessage_eq.
    destruct (pending_entry msg st) as [[n1 k1]|] eqn:E.
    + apply pending_entry_Some in E as (Hid & Hpos & Hn1).
      destruct (entry_pending _ Hok n1 k1 Hn1) as (_ & Hpend & Hnone1).
      pose proof (Hown n1 k1 Hn1) as Hres.
      rewrite Hpend. simpl. rewrite length_insert. split; [done|]. split.
      * intros n k [_ Hk]%lookup_delete_Some. by apply (Hown n k).
      * intros n Hn [->|Hnone]%lookup_delete_None.
        -- exists msg. rewrite <- Hres, completions_app, Hnone1. simpl.
           rewrite decide_True by done. split; [done|]. split; [done|].
           apply list_lookup_insert_eq. by eapply lookup_lt_Some.
        -- destruct (Hgone n Hn Hnone) as (m & ? & ? & ?).
           assert (n ≠ n1) as Hne by (intros ->; by rewrite Hn1 in Hnone).
           assert (resolve k1 ≠ Z.to_nat (n - 1)) as Hd by (rewrite Hres; lia).
           exists m. rewrite completions_snoc_ne by done.
           by rewrite list_lookup_insert_ne.
    + destruct (broadcast_same_table msg st) as (Hi & Ht & Hp & Hc).
      rewrite Hi, Ht, Hp. split; [done|]. split; [done|].
      intros n Hn Hnone. destruct (Hgone n Hn Hnone) as (m & ? & ? & ?).
      exists m. by rewrite Hc.
Qed.

(** X9. In a reachable state every identifier assigned so far, that is
    every [n] from 1 to the counter, is accounted for, and in one way only.
    Either its entry is in the table, holding the promise made by the call
    that was given [n], which is pending and whose wrapper was never
    called; or its entry is gone, and that wrapper was called exactly once,
    with a message carrying identifier [n], whose outcome the promise
    holds. No other key is in the table. So an entry leaves the table only
    by a response with its own identifier. *)
Theorem identifiers_are_accounted_for (st : State) (n : Z) :
  reachable st →
  let p := Z.to_nat (n - 1) in
  Z.of_nat (length (promises st)) = messageId st ∧
  (¬ (0 < n ≤ messageId st) → messageRequests st !! n = None) ∧
  (0 < n ≤ messageId st →
     (messageRequests st !! n = Some (mkCache p p) ∧
      promises st !! p = Some Pending ∧
      completions p (trace st) = []) ∨
     (messageRequests st !! n = None ∧
      ∃ msg, rsp_id msg = Some n ∧
        completions p (trace st) = [msg] ∧
        promises st !! p = Some (settled msg))).
Proof.
  intros Hreach p.
  assert (Z.of_nat (length (promises st)) = messageId st ∧
          (∀ n k, messageRequests st !! n = Some k → resolve k = Z.to_nat (n - 1)) ∧
          (∀ n, 0 < n ≤ messageId st → messageRequests st !! n = None →
             ∃ msg, rsp_id msg = Some n ∧
               completions (Z.to_nat (n - 1)) (trace st) = [msg] ∧
               promises st !! Z.to_nat (n - 1) = Some (settled msg)))
    as (Hlen & Hown & Hgone).
  { clear n p. induction Hreach as [|st c Hreach (Hlen & Hown & Hgone) Hen].
    - split; [done|]. split.
      + intros n k Hk. simpl in Hk. by rewrite lookup_empty in Hk.
      + simpl. intros n Hn. lia.
    - apply identifier_status_step; try done.
      by destruct (reachable_inv st Hreach) as (? & _). }
  destruct (reachable_inv st Hreach) as (Hok & _).
  split; [done|]. split.
  - intros Hout. destruct (messageRequests st !! n) as [k|] eqn:Hk; [|done].
    destruct Hout. by apply (keys_assigned _ Hok n k).
  - intros Hn. destruct (messageRequests st !! n) as [k|] eqn:Hk.
    + left. destruct (entry_pending _ Hok n k Hk) as (Hrr & Hpend & Hnone).
      pose proof (Hown n k Hk) as Hres. fold p in Hres.
      destruct k as [kr kj]. simpl in *. subst kr kj. done.
    + right. split; [done|]. by apply Hgone.
Qed.

Lemma identifiers_are_accounted_for_witness :
  let ping := mkRequest None None "ping" None in
  let msg := mkResponse "2.0" (Some 2) (Some (JStr "pong")) None in
  let st := exec [NewObject ping; Rpc 0%nat; Rpc 0%nat; Rpc 5%nat;
                  Connect "ws://a"; Open; Close; Message msg] init in
  messageId st = 3 ∧
  messageRequests st !! 1 = Some (mkCache 0 0) ∧
  (messageRequests st !! 2 = None ∧ completions 1%nat (trace st) = [msg]) ∧
  messageRequests st !! 3 = Some (mkCache 2 2) ∧
  messageRequests st !! 4 = None.
Proof.
  intros ping msg st.
  assert (reachable st) as Hreach.
  { subst st. cbn [exec].
    apply (reachable_step _ (Message _)); [|reflexivity].
    apply (reachable_step _ Close); [|reflexivity].
    apply (reachable_step _ Open); [|reflexivity].
    apply (reachable_step _ (Connect "ws://a")); [|reflexivity].
    apply (reachable_step _ (Rpc 5%nat)); [|reflexivity].
    apply (reachable_step _ (Rpc 0%nat)); [|reflexivity].
    apply (reachable_step _ (Rpc 0%nat)); [|reflexivity].
    apply (reachable_step _ (NewObject _)); [|reflexivity].
    apply reachable_init. }
  split; [reflexivity|]. split; [reflexivity|]. split; [by split|].
  split; [reflexivity|].
  apply (proj1 (proj2 (identifiers_are_accounted_for st 4 Hreach))).
  vm_compute. intros [_ H]. by apply H.
Defined.
